(** * rdkit_easy: clustering, table bookkeeping and structure rendering

    A shallow embedding of [atomsci/ddm/utils/rdkit_easy.py].  The module is
    glue around a chemistry toolkit and a table library, so the development
    has three layers:

    - the toolkit and table primitives the functions call (similarity of two
      bit vectors, the clustering routine, cell assignment in a table, the
      drawing calls), either taken as section variables or modelled here
      (the module [Butina], the section [Tables]);
    - the functions of the file itself, translated statement by statement;
    - the properties of those functions.

    Floating point distances are idealised as rationals: the functions only
    subtract a similarity from one and compare the result with the cutoff. *)

From Stdlib Require Import QArith.
From stdpp Require Import base list sorting strings gmap pretty.

Set Default Proof Using "Type".

(** ** Small list and option helpers *)

(** A left fold whose step can fail, as a Python loop whose body can raise. *)
Fixpoint foldlM {A B : Type} (f : A → B → option A) (a : A) (l : list B)
  : option A :=
  match l with
  | [] => Some a
  | x :: l' => match f a x with
               | Some a' => foldlM f a' l'
               | None => None
               end
  end.

(** Number of entries of the condensed distance matrix that precede row [i]:
    rows [1 .. i-1] hold [1, 2, .., i-1] entries. *)
Fixpoint tri (i : nat) : nat :=
  match i with
  | O => 0
  | S k => tri k + k
  end.

(** ** The toolkit's clustering routine *)

(** Modelled from the spec: the module [rdkit.ML.Cluster.Butina] belongs to
    the chemistry toolkit and is not part of the repository.  The definitions
    of this module are the steps of its routine [ClusterData], which is put
    together at the end of the module. *)
Module Butina.

(** [nbrLists[i].append(j); nbrLists[j].append(i)] *)
Definition add_pair (nbrLists : list (list nat)) (i j : nat)
  : list (list nat) :=
  alter (λ l, l ++ [i]) j (alter (λ l, l ++ [j]) i nbrLists).

(** One pass of the inner loop: read [data[dmIdx]], advance [dmIdx], and
    record the pair when the distance is within the threshold.  Reading
    past the end of [data] is the only way the routine can fail. *)
Definition scan_pair (data : list Q) (distThresh : Q) (i : nat)
    (st : list (list nat) * nat) (j : nat) : option (list (list nat) * nat) :=
  match data !! st.2 with
  | Some dij =>
      Some (if Qle_bool dij distThresh then add_pair st.1 i j else st.1,
            S st.2)
  | None => None
  end.

(** [for j in range(i): ...] *)
Definition scan_row (data : list Q) (distThresh : Q)
    (st : list (list nat) * nat) (i : nat) : option (list (list nat) * nat) :=
  foldlM (scan_pair data distThresh i) st (seq 0 i).

(** [for i in range(nPts): for j in range(i): ...], starting from empty
    neighbour lists and [dmIdx = 0]. *)
Definition neighbour_lists (data : list Q) (nPts : nat) (distThresh : Q)
  : option (list (list nat)) :=
  fst <$> foldlM (scan_row data distThresh) (replicate nPts [], 0) (seq 0 nPts).

(** Order of the pairs [(len(y), x)] under [sort(reverse=True)]: larger
    neighbour count first, and for equal counts larger index first. *)
Definition rank_ge (a b : nat * nat) : Prop :=
  b.1 < a.1 ∨ (a.1 = b.1 ∧ b.2 ≤ a.2).

#[global] Instance rank_ge_dec a b : Decision (rank_ge a b).
Proof. unfold rank_ge. apply _. Defined.

(** [tLists = [(len(y), x) for x, y in enumerate(nbrLists)]], sorted. *)
Definition ranking (nbrLists : list (list nat)) : list (nat * nat) :=
  merge_sort rank_ge (imap (λ x y, (length y, x)) nbrLists).

(** [seen[i]], for a position of the flag list. *)
Definition flag (seen : list bool) (i : nat) : bool :=
  default false (seen !! i).

(** The body of [for nbr in nbrLists[idx]]: an unseen neighbour joins the
    cluster under construction and is flagged. *)
Definition absorb (st : list nat * list bool) (nbr : nat)
  : list nat * list bool :=
  if flag st.2 nbr then st else (st.1 ++ [nbr], <[nbr := true]> st.2).

(** [while tLists: _, idx = tLists.pop(0); ...]: a flagged point is
    skipped, an unflagged one seeds a cluster.  The seed itself is not
    flagged; it has left [tLists] and cannot seed again. *)
Fixpoint sweep (nbrLists : list (list nat)) (tLists : list (nat * nat))
    (seen : list bool) : list (list nat) :=
  match tLists with
  | [] => []
  | (_, idx) :: tLists' =>
      if flag seen idx then sweep nbrLists tLists' seen
      else
        let st := foldl absorb ([idx], seen) (default [] (nbrLists !! idx)) in
        st.1 :: sweep nbrLists tLists' st.2
  end.

(** Modelled from the spec: [Butina.ClusterData(data, nPts, distThresh,
    isDistData=True)] belongs to the chemistry toolkit and is not part of
    the repository.  The spec describes it as greedy sphere exclusion:
    points are processed in a fixed order, every point that is still
    unassigned becomes the centroid of a new cluster and absorbs the
    unassigned points within the threshold.  The model follows the
    toolkit's routine: [data] is the condensed lower triangle of the
    distance matrix read row by row, two points are neighbours when their
    distance is at most the threshold, the processing order is by
    decreasing neighbour count, and the order is not revised while the
    clusters are formed.  The clusters are handed back in the order in which
    their centroids were visited.  The spec also has a sentence on the order
    of the returned tuple (by decreasing size); the visiting order does not
    give that order in general, and the model does not re-order the
    clusters. *)
Definition ClusterData (data : list Q) (nPts : nat) (distThresh : Q)
  : option (list (list nat)) :=
  nbrLists ← neighbour_lists data nPts distThresh;
  Some (sweep nbrLists (ranking nbrLists) (replicate nPts false)).

End Butina.

(** ** Fingerprint clustering *)

Section Fingerprints.

(** The toolkit's bit vector type and its similarity of two vectors. *)
Context {ExplicitBitVect : Type}.
Variable TanimotoSimilarity : ExplicitBitVect → ExplicitBitVect → Q.

(** [DataStructs.BulkTanimotoSimilarity(fp, fps)]: the similarity of [fp]
    to each member of [fps], in order. *)
Definition BulkTanimotoSimilarity (fp : ExplicitBitVect)
    (fps : list ExplicitBitVect) : list Q :=
  TanimotoSimilarity fp <$> fps.

(** The body of [for i in range(1, nfps)]:
    [dists.extend([1-x for x in BulkTanimotoSimilarity(fps[i], fps[:i])])]. *)
Definition extend_dists (fps : list ExplicitBitVect) (dists : list Q)
    (i : nat) : list Q :=
  match fps !! i with
  | Some fp => dists ++ ((λ x : Q, (1 - x)%Q) <$> BulkTanimotoSimilarity fp (take i fps))
  | None => dists
  end.

(** The distance list built by the first loop of [cluster_fingerprints]. *)
Definition distance_list (fps : list ExplicitBitVect) : list Q :=
  foldl (extend_dists fps) [] (seq 1 (length fps - 1)).

Definition cluster_fingerprints (fps : list ExplicitBitVect) (cutoff : Q)
  : option (list (list nat)) :=
  let dists := distance_list fps in
  let nfps := length fps in
  Butina.ClusterData dists nfps cutoff.

End Fingerprints.

(** *** A concrete bit vector *)

(** Modelled from the spec: the Tanimoto similarity of two bit vectors of the
    same length, the number of bits set in both over the number of bits set
    in either; two vectors without any bit set have similarity one. *)
Definition on_bits (a : list bool) : nat :=
  length (filter (λ p, p = true) a).

Definition common_bits (a b : list bool) : nat :=
  length (filter (λ p, p.1 && p.2 = true) (zip a b)).

Definition tanimoto (a b : list bool) : Q :=
  let x := common_bits a b in
  let y := on_bits a in
  let z := on_bits b in
  if decide (y + z - x = 0)%nat then 1%Q
  else (inject_Z (Z.of_nat x) / inject_Z (Z.of_nat (y + z - x)))%Q.

(** The bit vector of the given length whose set bits are [on]. *)
Definition bits (n : nat) (on : list nat) : list bool :=
  (λ i, bool_decide (i ∈ on)) <$> seq 0 n.

(** *** The reference algorithm *)

(** Greedy sphere exclusion as the spec words it: the points are visited in
    the given order; a point that is still unassigned becomes the centroid of
    a new cluster, which takes every not yet assigned point within the cutoff
    of the centroid; this goes on until the order is exhausted. *)
Fixpoint sphere_exclusion (close : nat → nat → bool) (points order : list nat)
    (assigned : list nat) : list (list nat) :=
  match order with
  | [] => []
  | p :: rest =>
      if bool_decide (p ∈ assigned)
      then sphere_exclusion close points rest assigned
      else
        let members :=
          p :: filter (λ q, close p q ∧ q ∉ p :: assigned) points in
        members :: sphere_exclusion close points rest (members ++ assigned)
  end.

(** The points within the cutoff of point [k], in increasing order. *)
Definition neighbours (close : nat → nat → bool) (n k : nat) : list nat :=
  filter (λ m, close k m) (seq 0 n).

(** The order in which the toolkit visits the points: by decreasing number
    of neighbours, points with equally many neighbours by decreasing index. *)
Definition processing_order (close : nat → nat → bool) (n : nat) : list nat :=
  (Butina.ranking (neighbours close n <$> seq 0 n)).*2.

Section Distances.

Context {ExplicitBitVect : Type}.
Variable TanimotoSimilarity : ExplicitBitVect → ExplicitBitVect → Q.

(** Distance of the unordered pair of positions [p], [q]: one minus the
    similarity of the later fingerprint to the earlier one. *)
Definition pair_distance (fps : list ExplicitBitVect) (p q : nat) : option Q :=
  match fps !! (p `max` q), fps !! (p `min` q) with
  | Some a, Some b => Some (1 - TanimotoSimilarity a b)%Q
  | _, _ => None
  end.

(** Two distinct positions are within the cutoff of each other. *)
Definition within_cutoff (fps : list ExplicitBitVect) (cutoff : Q)
    (p q : nat) : bool :=
  bool_decide (p ≠ q) &&
  match pair_distance fps p q with
  | Some d => Qle_bool d cutoff
  | None => false
  end.

End Distances.

(** ** Python outcomes, objects and effects *)

(** An exception, by the handler that would catch it: an instance of
    [RuntimeError], an instance of [ValueError], or an exception that is
    neither, with the name of its class. *)
Inductive exn : Type :=
  | RuntimeError
  | ValueError
  | OtherError (name : string).

#[global] Instance exn_eq_dec : EqDecision exn.
Proof. solve_decision. Defined.

(** A call either returns a value or raises. *)
Inductive result (A : Type) : Type :=
  | Ok (a : A)
  | Raise (e : exn).
Arguments Ok {A} a.
Arguments Raise {A} e.

Definition result_map {A B} (f : A → B) (r : result A) : result B :=
  match r with
  | Ok a => Ok (f a)
  | Raise e => Raise e
  end.

(** A statement run on a mutable state [S]: it leaves a state behind and
    returns or raises.  A raise keeps the mutations made before it. *)
Definition Py (S A : Type) : Type := S → S * result A.

Definition ret {S A} (a : A) : Py S A := λ s, (s, Ok a).

Definition bind {S A B} (m : Py S A) (k : A → Py S B) : Py S B :=
  λ s, match m s with
       | (s', Ok a) => k a s'
       | (s', Raise e) => (s', Raise e)
       end.

Notation "'do' x <- m ; k" := (bind m (λ x, k))
  (at level 10, x pattern, m at level 100, k at level 200).
Notation "m ;;; k" := (bind m (λ _, k))
  (at level 100, k at level 200, right associativity).

Definition raise {S A} (e : exn) : Py S A := λ s, (s, Raise e).

(** A call that does not touch the state. *)
Definition lift {S A} (r : result A) : Py S A := λ s, (s, r).

Definition get {S} : Py S S := λ s, (s, Ok s).

Definition modify {S} (f : S → S) : Py S unit := λ s, (f s, Ok tt).

(** [try: m except cls: handler], for a handler that catches class [cls];
    exceptions of the third kind are never caught by the handlers of the
    file, which name [RuntimeError] and [ValueError] only. *)
Definition try_except {S A} (m : Py S A) (cls : exn) (handler : Py S A)
  : Py S A :=
  λ s, match m s with
       | (s', Raise e) => if decide (e = cls) then handler s' else (s', Raise e)
       | out => out
       end.

(** [for x in l: body] *)
Fixpoint for_each {S A} (l : list A) (body : A → Py S unit) : Py S unit :=
  match l with
  | [] => ret tt
  | x :: l' => body x ;;; for_each l' body
  end.

(** [[f(x) for x in l]] when [f] can raise. *)
Fixpoint map_result {A B} (f : A → result B) (l : list A) : result (list B) :=
  match l with
  | [] => Ok []
  | x :: l' =>
      match f x with
      | Ok y => result_map (cons y) (map_result f l')
      | Raise e => Raise e
      end
  end.

(** What a function hands back to its caller: [None] or a reference to an
    object of the store. *)
Inductive pyval : Type :=
  | PyNone
  | PyRef (l : nat).

(** ** Tables *)

Section Tables.

Context {Mol : Type}.

(** The content of a table cell, or the cells a repeated label selects. *)
#[warnings="-register-all"]
Inductive cell : Type :=
  | NaN
  | Int (z : Z)
  | Num (q : Q)
  | Str (s : string)
  | Obj (m : Mol)
  | NoneCell
  | Series (cells : list cell).

(** Modelled from the spec: the table library is not part of the repository.
    A data frame is a row-oriented table, modelled as the row labels and the
    named columns in column order; column names are distinct and every
    column has one cell per row. *)
Record DataFrame : Type := {
  index : list Z;
  columns : list (string * list cell)
}.

Definition column_names (df : DataFrame) : list string := (columns df).*1.

Fixpoint lookup_column (col : string) (cols : list (string * list cell))
  : option (list cell) :=
  match cols with
  | [] => None
  | (name, cells) :: cols' =>
      if decide (name = col) then Some cells else lookup_column col cols'
  end.

(** [df[col]] *)
Definition column (df : DataFrame) (col : string) : option (list cell) :=
  lookup_column col (columns df).

(** Modelled from the spec: [df[col] = cells] of the table library.  An
    existing column keeps its place and gets the new cells, a new column is
    appended after the others. *)
Definition set_column (col : string) (cells : list cell) (df : DataFrame)
  : DataFrame :=
  {| index := index df;
     columns :=
       if decide (col ∈ column_names df)
       then (λ c, if decide (c.1 = col) then (col, cells) else c) <$> columns df
       else columns df ++ [(col, cells)] |}.

(** A new row with the given label, empty in every column. *)
Definition add_row (lab : Z) (df : DataFrame) : DataFrame :=
  {| index := index df ++ [lab];
     columns := (λ c, (c.1, c.2 ++ [NaN])) <$> columns df |}.

(** Modelled from the spec: [df.at[lab, col] = v] of the table library, the
    in-place update of one cell.  A missing label adds a row and a missing
    column adds a column of empty cells; then the cell of column [col] is set
    in the rows labelled [lab]. *)
Definition at_set (lab : Z) (col : string) (v : cell) (df : DataFrame)
  : DataFrame :=
  let df1 := if decide (lab ∈ index df) then df else add_row lab df in
  let old := default (replicate (length (index df1)) NaN) (column df1 col) in
  set_column col
    (zip_with (λ l c, if decide (l = lab) then v else c) (index df1) old) df1.

(** Modelled from the spec: [df.at[lab, col]] of the table library, the cell
    of the one row labelled [lab].  A missing column or label raises
    [KeyError].  With a repeated label the library hands back, instead of a
    cell, the sub-series of the cells of the rows that bear the label. *)
Definition at_get (lab : Z) (col : string) (df : DataFrame) : result cell :=
  match column df col with
  | None => Raise (OtherError "KeyError")
  | Some cells =>
      match filter (λ p, p.1 = lab) (zip (index df) cells) with
      | [] => Raise (OtherError "KeyError")
      | [p] => Ok p.2
      | ps => Ok (Series ps.*2)
      end
  end.

(** Modelled from the spec: [df.reset_index()] of the table library, the
    resettable row index, for an unnamed index.  The result is a new table
    with the default labels [0 .. n-1] whose first column holds the old
    labels.  The column is called [index], or [level_0] when that name is
    taken; inserting a name that exists raises [ValueError]. *)
Definition reset_index (df : DataFrame) : result DataFrame :=
  let name := if decide ("index" ∈ column_names df) then "level_0" else "index" in
  if decide (name ∈ column_names df) then Raise ValueError
  else Ok {| index := Z.of_nat <$> seq 0 (length (index df));
             columns := (name, Int <$> index df) :: columns df |}.

(** Modelled from the spec: [df[[col]].values.tolist()] of the table
    library, the rows of the one-column selection. *)
Definition values_tolist (df : DataFrame) (col : string)
  : result (list (list cell)) :=
  match column df col with
  | None => Raise (OtherError "KeyError")
  | Some cells => Ok ((λ c, [c]) <$> cells)
  end.

(** The store of the caller: data frame objects by reference. *)
Definition heap : Type := gmap nat DataFrame.

(** Run statements on the object that [df] refers to.  A reference held by
    the caller always has an object; the other branch is not reachable. *)
Definition in_place {A} (df : nat) (body : Py DataFrame A) : Py heap A :=
  λ h, match h !! df with
       | Some fr => let out := body fr in (<[df := out.1]> h, out.2)
       | None => (h, Raise (OtherError "NameError"))
       end.

(** *** add_mol_column *)

Variable MolFromSmiles : string → option Mol.

(** Modelled from the spec: [PandasTools.AddMoleculeColumnToFrame(df,
    smiles_col, molecule_col)] of the toolkit parses every string of column
    [smiles_col] and stores the molecules in column [molecule_col]; a string
    that does not parse leaves a null entry, no row raises. *)
Definition AddMoleculeColumnToFrame (smiles_col molecule_col : string)
  : Py DataFrame unit :=
  do fr <- get;
  match column fr smiles_col with
  | None => raise (OtherError "KeyError")
  | Some cells =>
      modify (set_column molecule_col
                ((λ c, match c with
                       | Str s => match MolFromSmiles s with
                                  | Some m => Obj m
                                  | None => NoneCell
                                  end
                       | _ => NoneCell
                       end) <$> cells))
  end.

Definition add_mol_column (df : nat) (smiles_col molecule_col : string)
  : Py heap pyval :=
  in_place df (AddMoleculeColumnToFrame smiles_col molecule_col) ;;;
  ret (PyRef df).

(** *** calculate_descriptors *)

(** [Descriptors._descList]: the toolkit's descriptors, name and function. *)
Variable _descList : list (string * (Mol → cell)).

(** [MoleculeDescriptors.MolecularDescriptorCalculator(names).CalcDescriptors]
    applied to the content of a cell. *)
Variable CalcDescriptors : list string → cell → result (list cell).

(** The statements of [calculate_descriptors], run on the table that [df]
    refers to. *)
Definition calculate_descriptors_body (molecule_column : string)
  : Py DataFrame unit :=
  let descriptors := _descList.*1 in
  let calculator := CalcDescriptors descriptors in
  do fr <- get;
  for_each (index fr) (λ i,
    do fr_i <- get;
    do mol <- lift (at_get i molecule_column fr_i);
    do cd <- lift (calculator mol);
    for_each (zip descriptors cd) (λ p,
      modify (at_set i p.1 p.2))).

(** The function has no [return]: the caller gets [None]. *)
Definition calculate_descriptors (df : nat) (molecule_column : string)
  : Py heap pyval :=
  in_place df (calculate_descriptors_body molecule_column) ;;;
  ret PyNone.

(** *** cluster_dataframe *)

Context {ExplicitBitVect : Type}.
Variable TanimotoSimilarity : ExplicitBitVect → ExplicitBitVect → Q.

(** [AllChem.GetMorganFingerprintAsBitVect(x, radius, nBits)] applied to the
    content of a cell. *)
Variable GetMorganFingerprintAsBitVect : cell → nat → nat → result ExplicitBitVect.

(** The statements of [cluster_dataframe], run on the table that [df]
    refers to. *)
Definition cluster_dataframe_body (molecule_column cluster_column : string)
    (cutoff : Q) : Py DataFrame unit :=
  do fr0 <- get;
  modify (set_column cluster_column
            (replicate (length (index fr0)) (Int (-1)))) ;;;
  do fr <- get;
  do df2 <- lift (reset_index fr);
  let df2 := set_column "df_index" (Int <$> index fr) df2 in
  do mols <- lift (values_tolist df2 molecule_column);
  do fingerprints <- lift
    (map_result (λ x, GetMorganFingerprintAsBitVect (default NoneCell (x !! 0)) 2 1024)
       mols);
  do clusters <- lift
    (match cluster_fingerprints TanimotoSimilarity fingerprints cutoff with
     | Some cs => Ok cs
     | None => Raise (OtherError "IndexError")
     end);
  for_each (seq 0 (length clusters)) (λ i,
    let c := default [] (clusters !! i) in
    for_each c (λ j,
      do df_index <- lift (at_get (Z.of_nat j) "df_index" df2);
      match df_index with
      | Int lab => modify (at_set lab cluster_column (Int (Z.of_nat i)))
      | _ => raise (OtherError "KeyError")
      end)).

Definition cluster_dataframe (df : nat) (molecule_column cluster_column : string)
    (cutoff : Q) : Py heap pyval :=
  in_place df (cluster_dataframe_body molecule_column cluster_column cutoff) ;;;
  ret PyNone.

End Tables.

Arguments cell : clear implicits.
Arguments DataFrame : clear implicits.
Arguments heap : clear implicits.

(** ** Structure rendering *)

(** [c.lower()] on one character; only the letters [A-Z] change.  The
    characters beyond ASCII that the language would also lower never turn
    into one of the letters of [png] or [svg]. *)
Definition lower_ascii (c : Ascii.ascii) : Ascii.ascii :=
  let n := Ascii.nat_of_ascii c in
  if bool_decide (65 ≤ n ≤ 90) then Ascii.ascii_of_nat (n + 32) else c.

(** [s.lower()] *)
Fixpoint lower (s : string) : string :=
  match s with
  | EmptyString => EmptyString
  | String c s' => String (lower_ascii c) (lower s')
  end.

(** [s.replace(old, new)] for a non-empty [old]: the occurrences are
    replaced from left to right without overlap.  [skip] counts the
    characters of the current occurrence that are still to be dropped. *)
Fixpoint replace_from (old new : string) (skip : nat) (s : string) : string :=
  match s with
  | EmptyString => EmptyString
  | String c s' =>
      match skip with
      | S k => replace_from old new k s'
      | O =>
          if String.prefix old s
          then new +:+ replace_from old new (String.length old - 1) s'
          else String c (replace_from old new 0 s')
      end
  end.

Definition replace (old new : string) (s : string) : string :=
  replace_from old new 0 s.

(** The clean-up of the drawing text at the end of [mol_to_svg]. *)
Definition strip_namespace (svg : string) : string :=
  replace "xmlns:svg" "xmlns" (replace "svg:" "" svg).

Section Rendering.

(** The toolkit's objects: a molecule (with its property cache), an atom, an
    image; byte strings; and the file system the images go to. *)
Context {Mol Atom Image Bytes FS : Type}.

(** What the calls of one rendering can change: the molecule object the
    caller passes as [mol], the records handed to the logger, the files. *)
Record world : Type := {
  w_mol : Mol;
  w_log : list (string * string);
  w_fs : FS
}.

Definition set_mol (m : Mol) (w : world) : world :=
  {| w_mol := m; w_log := w_log w; w_fs := w_fs w |}.

Definition add_log (level msg : string) (w : world) : world :=
  {| w_mol := w_mol w; w_log := w_log w ++ [(level, msg)]; w_fs := w_fs w |}.

(** A file system call, which sees and changes the files only. *)
Definition on_fs {A} (f : FS → FS * result A) : Py world A :=
  λ w, let out := f (w_fs w) in
       ({| w_mol := w_mol w; w_log := w_log w; w_fs := out.1 |}, out.2).

(** The toolkit's calls. *)
Variable GetAtomWithIdx : Mol → nat → result Atom.
Variable GetExplicitValence : Atom → result Z.
Variable UpdatePropertyCache : Mol → bool → result Mol.
Variable PrepareMolForDrawing : Mol → bool → result Mol.
(** [MolDraw2DSVG(w, h)], [DrawMolecule], [FinishDrawing], [GetDrawingText]. *)
Variable MolDraw2DSVG : Z → Z → Mol → result string.
Variable MolToImage : Mol → Z * Z → result Image.
(** [img.save(buffer, format=img.format)] followed by [buffer.getvalue()]. *)
Variable image_bytes : Image → result Bytes.
(** [pil.save(name, 'PNG')] *)
Variable image_save : Image → string → string → FS → FS * result unit.
(** [with open(name, 'w') as img_out: img_out.write(svg)] *)
Variable write_text : string → string → FS → FS * result unit.
(** [os.makedirs(directory, exist_ok=True)] *)
Variable makedirs : string → FS → FS * result unit.
(** [b64encode(data).decode()] and [text.encode('utf-8')]. *)
Variable b64encode : Bytes → string.
Variable encode_utf8 : string → Bytes.

(** [log.warning(msg)] and [log.info(msg)] on the logger [ATOM]. *)
Definition log_warning (msg : string) : Py world unit :=
  modify (add_log "WARNING" msg).
Definition log_info (msg : string) : Py world unit :=
  modify (add_log "INFO" msg).

Definition mol_to_pil (size : Z * Z) : Py world Image :=
  do w <- get;
  do pil <- lift (MolToImage (w_mol w) (size.1, size.2));
  ret pil.

Definition save_png (name : string) (size : Z * Z) : Py world unit :=
  do pil <- mol_to_pil size;
  on_fs (image_save pil name "PNG").

Definition mol_to_svg (size : Z * Z) : Py world string :=
  let '(img_wd, img_ht) := size in
  try_except
    (do w <- get;
     do atom <- lift (GetAtomWithIdx (w_mol w) 0);
     do _ <- lift (GetExplicitValence atom);
     ret tt)
    RuntimeError
    (do w <- get;
     do mol' <- lift (UpdatePropertyCache (w_mol w) false);
     modify (set_mol mol')) ;;;
  do mc_mol <-
    try_except
      (do w <- get; lift (PrepareMolForDrawing (w_mol w) true))
      ValueError
      (do w <- get; lift (PrepareMolForDrawing (w_mol w) false));
  do svg <- lift (MolDraw2DSVG img_wd img_ht mc_mol);
  let svg := replace "svg:" "" svg in
  let svg := replace "xmlns:svg" "xmlns" svg in
  ret svg.

Definition save_svg (name : string) (size : Z * Z) : Py world unit :=
  do svg <- mol_to_svg size;
  on_fs (write_text name svg).

Definition img_tag (src : string) (width : Z) : string :=
  "<img src='" +:+ src +:+ "' style='width:" +:+ pretty width +:+ "px;'>".

Definition mol_to_html (name type directory : string) (embed : bool)
    (width height : Z) : Py world (option string) :=
  if bool_decide (lower type ∉ ["png"; "svg"]) then
    log_warning "Image type not recognized. Choose between png and svg." ;;;
    ret None
  else if embed then
    log_info "Warning: embed=True will result in large data structures if you have a lot of molecules." ;;;
    do data_url <-
      (if bool_decide (lower type = "png") then
         do img <- mol_to_pil (width, height);
         do imgByteArr <- lift (image_bytes img);
         ret ("data:image/png;base64," +:+ b64encode imgByteArr)
       else if bool_decide (lower type = "svg") then
         do svg <- mol_to_svg (width, height);
         let img := encode_utf8 svg in
         ret ("data:image/svg+xml;base64," +:+ b64encode img)
       else raise (OtherError "UnboundLocalError"));
    ret (Some (img_tag data_url width))
  else
    let img_file := directory +:+ "/" +:+ name in
    on_fs (makedirs directory) ;;;
    (if bool_decide (lower type = "png") then
       save_png img_file (width, height)
     else if bool_decide (lower type = "svg") then
       save_svg img_file (width, height)
     else ret tt) ;;;
    ret (Some (img_tag img_file width)).

(** Reading the valence of the first atom of [m] raises [e]. *)
Definition probe_raises (m : Mol) (e : exn) : Prop :=
  GetAtomWithIdx m 0 = Raise e ∨
  ∃ a, GetAtomWithIdx m 0 = Ok a ∧ GetExplicitValence a = Raise e.

(** The property cache is usable: the valence of the first atom can be read
    from the molecule [m] as it is (and [m'] is [m]), or the read raised a
    runtime error and the refresh turned [m] into [m']. *)
Definition cache_ready (m m' : Mol) : Prop :=
  (∃ a v, GetAtomWithIdx m 0 = Ok a ∧ GetExplicitValence a = Ok v ∧ m' = m) ∨
  (probe_raises m RuntimeError ∧ UpdatePropertyCache m false = Ok m').

(** [mc] is the molecule prepared for drawing: with exact bond orders, or,
    when that raised a value error, without forcing them. *)
Definition prepared (m mc : Mol) : Prop :=
  PrepareMolForDrawing m true = Ok mc ∨
  (PrepareMolForDrawing m true = Raise ValueError ∧
   PrepareMolForDrawing m false = Ok mc).

End Rendering.

Arguments world : clear implicits.

(** *** A small toolkit to run the rendering on *)

(** A molecule of the toy toolkit: is its property cache stale, and can it
    be drawn with exact bond orders. *)
Record toy_mol : Type := { stale : bool; kekulizable : bool }.

Definition toy_atom (m : toy_mol) (i : nat) : result toy_mol := Ok m.
Definition toy_valence (a : toy_mol) : result Z :=
  if stale a then Raise RuntimeError else Ok 4%Z.
Definition toy_update (m : toy_mol) (strict : bool) : result toy_mol :=
  Ok {| stale := false; kekulizable := kekulizable m |}.
Definition toy_prepare (m : toy_mol) (kekulize : bool) : result toy_mol :=
  if kekulize && negb (kekulizable m) then Raise ValueError else Ok m.
Definition toy_svg (w h : Z) (m : toy_mol) : result string :=
  Ok "<svg:svg xmlns:svg='http://www.w3.org/2000/svg'></svg:svg>".
Definition toy_image (m : toy_mol) (size : Z * Z) : result string := Ok "PNG".
Definition toy_bytes (img : string) : result string := Ok img.
Definition toy_save (img name fmt : string) (fs : list (string * string))
  : list (string * string) * result unit := (fs ++ [(name, img)], Ok tt).
Definition toy_write (name text : string) (fs : list (string * string))
  : list (string * string) * result unit := (fs ++ [(name, text)], Ok tt).
Definition toy_makedirs (dir : string) (fs : list (string * string))
  : list (string * string) * result unit := (fs, Ok tt).

Definition toy_mol_to_svg :=
  mol_to_svg (FS := list (string * string))
    toy_atom toy_valence toy_update toy_prepare toy_svg.

Definition toy_mol_to_html :=
  mol_to_html (FS := list (string * string))
    toy_atom toy_valence toy_update toy_prepare toy_svg toy_image toy_bytes
    toy_save toy_write toy_makedirs (λ b : string, b) (λ s : string, s).

Definition toy_world (m : toy_mol) : world toy_mol (list (string * string)) :=
  {| w_mol := m; w_log := []; w_fs := [] |}.

(** *** The label loop of cluster_dataframe *)

(** The cell assignments of the label loop, in order: cluster number and
    row position. *)
Definition label_writes (clusters : list (list nat)) : list (nat * nat) :=
  concat ((λ i, (λ j, (i, j)) <$> default [] (clusters !! i))
            <$> seq 0 (length clusters)).

(** A cluster column after those assignments. *)
Definition write_labels {Mol : Type} (cells : list (cell Mol))
    (ws : list (nat * nat)) : list (cell Mol) :=
  foldl (λ cells w, <[w.2 := Int (Z.of_nat w.1)]> cells) cells ws.

(** *** Vocabulary of the clustering properties *)

(** The first listed index of a cluster. *)
Definition centroid (c : list nat) : nat := hd 0 c.

(** Every index below [n] lies in exactly one cluster, exactly once. *)
Definition partition_of (n : nat) (cs : list (list nat)) : Prop :=
  concat cs ≡ₚ seq 0 n ∧
  ∀ i, i < n → ∃ k c, cs !! k = Some c ∧ i ∈ c ∧
    ∀ k' c', cs !! k' = Some c' → i ∈ c' → k' = k.

(** Seven fingerprints of ten bits.  Two of them share a bit exactly when
    they are joined below, and then their distance is at most 4/5:
    [0 - 1], [0 - 2], [0 - 3], [1 - 4], [2 - 4], [5 - 6]. *)
Definition seven_fingerprints : list (list bool) :=
  [ bits 10 [0; 1; 2]; bits 10 [0; 3]; bits 10 [1; 4]; bits 10 [2];
    bits 10 [3; 4]; bits 10 [5; 6]; bits 10 [5; 7] ].

(** *** A small table to run the table functions on *)

(** Seven rows with shuffled, non-contiguous labels; the molecule of a row
    is its fingerprint. *)
Definition seven_rows : DataFrame (list bool) :=
  {| index := [70; 31; 5; 112; 2; 9; 44]%Z;
     columns := [("mol", Obj <$> seven_fingerprints)] |}.

Definition toy_morgan (c : cell (list bool)) (radius nBits : nat)
  : result (list bool) :=
  match c with
  | Obj m => Ok m
  | _ => Raise (OtherError "ArgumentError")
  end.

(** The toy descriptors: two names; the calculator yields one number per
    name for a molecule and raises for anything else. *)
Definition toy_descList : list (string * (list bool → cell (list bool))) :=
  [("MolWt", λ m, Int (Z.of_nat (on_bits m)));
   ("NumAtoms", λ m, Int (Z.of_nat (length m)))].

Definition toy_calc (names : list string) (c : cell (list bool))
  : result (list (cell (list bool))) :=
  match c with
  | Obj m => Ok ((λ name, Int (Z.of_nat (on_bits m + String.length name))) <$> names)
  | _ => Raise (OtherError "ArgumentError")
  end.

(** A table without rows, and a table that already has a column with the
    name of a descriptor. *)
Definition no_rows : DataFrame (list bool) :=
  {| index := []; columns := [("mol", [])] |}.

Definition weighed_rows : DataFrame (list bool) :=
  {| index := [70; 31]%Z;
     columns := [("mol", [Obj (bits 10 [0; 1; 2]); Obj (bits 10 [0; 3])]);
                 ("MolWt", [Str "heavy"; Str "light"])] |}.

(** A table whose second molecule did not parse. *)
Definition unparsed_rows : DataFrame (list bool) :=
  {| index := [70; 31]%Z;
     columns := [("smiles", [Str "CCO"; Str "not a molecule"]);
                 ("mol", [Obj (bits 10 [0; 1; 2]); NoneCell])] |}.

(** Three rows of which two bear the same label; the three fingerprints
    have no bit in common. *)
Definition repeated_rows : DataFrame (list bool) :=
  {| index := [70; 70; 5]%Z;
     columns := [("mol", [Obj (bits 10 [0; 1]); Obj (bits 10 [2; 3]);
                          Obj (bits 10 [4; 5])])] |}.

(** The seven rows again, in a table that already has a column called
    [index]. *)
Definition indexed_rows : DataFrame (list bool) :=
  {| index := [70; 31; 5; 112; 2; 9; 44]%Z;
     columns := [("index", Int <$> [3; 1; 4; 1; 5; 9; 2]%Z);
                 ("mol", Obj <$> seven_fingerprints)] |}.

(** A calculator that raises for nothing: it yields a placeholder per name
    for what is not a molecule. *)
Definition lenient_calc (names : list string) (c : cell (list bool))
  : result (list (cell (list bool))) :=
  match c with
  | Obj m => Ok ((λ name, Int (Z.of_nat (on_bits m + String.length name))) <$> names)
  | _ => Ok ((λ _, Int (-666)) <$> names)
  end.

(** A parser that knows one string. *)
Definition toy_parse (s : string) : option (list bool) :=
  if decide (s = "CCO") then Some (bits 10 [0; 1; 2]) else None.

(** *** Vocabulary of the table properties *)

(** [df'] is [df] with one more column per name, in the order of the names,
    behind the columns of [df], which are as they were. *)
Definition appends_columns {Mol : Type} (df df' : DataFrame Mol)
    (names : list string) : Prop :=
  ∃ new, columns df' = columns df ++ new ∧ new.*1 = names.

(** State of the table in the loops of [calculate_descriptors]: the labels
    and the columns of the table [df] it started from are untouched, and the
    first [j] descriptors have their column. *)
Definition desc_inv {Mol : Type} (df : DataFrame Mol) (names : list string)
    (j : nat) (s : DataFrame Mol) : Prop :=
  index s = index df ∧
  ∃ new, columns s = columns df ++ new ∧ new.*1 = take j names.

(** *** Vocabulary of the effect properties *)

(** The statements [m] keep the property [P] of the state, however they
    end. *)
Definition preserves {S A : Type} (P : S → Prop) (m : Py S A) : Prop :=
  ∀ s, P s → P (m s).1.

(** [df'] has the row labels of [df] and agrees with it on every column
    whose name is not among [names]. *)
Definition same_outside {Mol : Type} (names : list string)
    (df df' : DataFrame Mol) : Prop :=
  index df' = index df ∧
  ∀ col, col ∉ names → column df' col = column df col.

(** State of the table in the loops of [calculate_descriptors], for the
    values: the labels and the molecules are those of the table [df] it
    started from, and every column named like a descriptor has one cell per
    row. *)
Definition values_inv {Mol : Type} (df : DataFrame Mol) (names : list string)
    (molecule_column : string) (s : DataFrame Mol) : Prop :=
  index s = index df ∧
  column s molecule_column = column df molecule_column ∧
  ∀ d cells, d ∈ names → column s d = Some cells →
             length cells = length (index df).

(** *** Loop invariants of the clustering routine *)

(** The pair [{k, m}] has been read once the loops have finished the rows
    before [i] and the first [j0] columns of row [i]. *)
Definition pair_read (i j0 k m : nat) : Prop :=
  k ≠ m ∧ (k `max` m < i ∨ (k `max` m = i ∧ k `min` m < j0)).

(** State of the neighbour lists at that moment: list [k] holds, in
    increasing order, the neighbours of [k] among the pairs read so far. *)
Definition nbr_inv (close : nat → nat → bool) (n i j0 : nat)
    (L : list (list nat)) : Prop :=
  length L = n ∧
  ∀ k, k < n → ∃ l, L !! k = Some l ∧ StronglySorted lt l ∧
    ∀ m, m ∈ l ↔ (m < n ∧ close k m ∧ pair_read i j0 k m).

(** What relates the flags of the routine to the assigned points of the
    reference: flagged points are assigned, and an assigned point that is
    not flagged is an earlier centroid, which is no longer in the queue and
    whose neighbours are all flagged. *)
Definition sweep_inv (close : nat → nat → bool) (n : nat) (seen : list bool)
    (assigned queue : list nat) : Prop :=
  length seen = n ∧
  (∀ x, Butina.flag seen x = true → x ∈ assigned) ∧
  (∀ x, x ∈ assigned → Butina.flag seen x = false →
        (x ∉ queue) ∧ (∀ y, y < n → close x y → Butina.flag seen y = true)).

(* ================================================================== *)
(** * Properties *)

(** ** Lists *)

Lemma foldlM_app {A B} (f : A → B → option A) a l k :
  foldlM f a (l ++ k) = foldlM f a l ≫= λ a', foldlM f a' k.
Proof.
  revert a. induction l as [|x l IH]; intros a; simpl; [done|].
  destruct (f a x); simpl; [apply IH | done].
Qed.

Lemma sorted_lt_unique (l1 l2 : list nat) :
  StronglySorted lt l1 → StronglySorted lt l2 →
  (∀ x, x ∈ l1 ↔ x ∈ l2) → l1 = l2.
Proof.
  intros S1 S2 Hiff.
  apply (StronglySorted_unique_strong lt); [intros; lia|done..|].
  apply NoDup_Permutation; [| |done].
  - clear -S1. induction S1 as [|x l ? IH Hx]; constructor; [|done].
    intros Hin. rewrite Forall_forall in Hx. specialize (Hx _ Hin). lia.
  - clear -S2. induction S2 as [|x l ? IH Hx]; constructor; [|done].
    intros Hin. rewrite Forall_forall in Hx. specialize (Hx _ Hin). lia.
Qed.

Lemma sorted_lt_seq a n : StronglySorted lt (seq a n).
Proof.
  revert a. induction n as [|n IH]; intros a; simpl; constructor; [apply IH|].
  apply Forall_forall. intros x Hx. apply elem_of_seq in Hx. lia.
Qed.

Lemma sorted_lt_filter (P : nat → Prop) `{!∀ x, Decision (P x)} l :
  StronglySorted lt l → StronglySorted lt (filter P l).
Proof.
  induction 1 as [|x l ? IH Hx]; [constructor|].
  destruct (decide (P x)).
  - rewrite filter_cons_True by done. constructor; [done|].
    apply Forall_forall. intros y Hy. apply list_elem_of_filter in Hy as [_ Hy].
    rewrite Forall_forall in Hx. auto.
  - by rewrite filter_cons_False.
Qed.

Lemma sorted_lt_snoc l x :
  StronglySorted lt l → (∀ y, y ∈ l → y < x) → StronglySorted lt (l ++ [x]).
Proof.
  intros Hl Hx. apply StronglySorted_app_2; [|done|repeat constructor].
  intros y z Hy Hz. apply list_elem_of_singleton in Hz as ->. auto.
Qed.

(** ** The neighbour lists of the clustering routine *)

Section NeighbourLists.

Variables (data : list Q) (n : nat) (distThresh : Q).
Variable close : nat → nat → bool.

Hypothesis close_sym : ∀ i j, close i j = close j i.
Hypothesis close_irrefl : ∀ i, close i i = false.

(** Entry [tri i + j] of the condensed matrix decides whether rows [i] and
    [j] are neighbours. *)
Hypothesis data_close : ∀ i j, j < i → i < n →
  ∃ q, data !! (tri i + j) = Some q ∧ Qle_bool q distThresh = close i j.

Lemma nbr_inv_init : nbr_inv close n 0 0 (replicate n []).
Proof using Type.
  split; [apply length_replicate|]. intros k Hk. exists [].
  split; [by apply lookup_replicate_2|]. split; [constructor|].
  intros m. split; [by intros ?%elem_of_nil|].
  intros (_ & _ & _ & H). lia.
Qed.

Lemma nbr_inv_next_row i L : nbr_inv close n i i L → nbr_inv close n (S i) 0 L.
Proof using Type.
  intros [Hlen HL]. split; [done|]. intros k Hk.
  destruct (HL k Hk) as (l & Hl & Hs & Hm). exists l. split_and!; [done..|].
  intros m. rewrite Hm. unfold pair_read. intuition lia.
Qed.

Lemma scan_pair_inv i j0 L :
  i < n → j0 < i → nbr_inv close n i j0 L →
  ∃ L', Butina.scan_pair data distThresh i (L, tri i + j0) j0
          = Some (L', tri i + S j0) ∧ nbr_inv close n i (S j0) L'.
Proof using close_sym close_irrefl data_close.
  intros Hi Hj [Hlen HL]. unfold Butina.scan_pair. simpl.
  destruct (data_close i j0 Hj Hi) as (q & -> & Hq). rewrite Hq.
  destruct (close i j0) eqn:Hc.
  - eexists. split; [by rewrite Nat.add_succ_r|].
    split; [unfold Butina.add_pair; by rewrite !length_alter|].
    intros k Hk. destruct (HL k Hk) as (l & Hl & Hs & Hm).
    unfold Butina.add_pair.
    destruct (decide (k = j0)) as [->|Hkj]; [|destruct (decide (k = i)) as [->|Hki]].
    + exists (l ++ [i]). rewrite list_lookup_alter_eq.
      rewrite list_lookup_alter_ne by lia. rewrite Hl. split; [done|].
      split.
      { apply sorted_lt_snoc; [done|]. intros y Hy. apply Hm in Hy.
        unfold pair_read in Hy. lia. }
      intros m. rewrite elem_of_app, list_elem_of_singleton, Hm.
      unfold pair_read. split.
      * intros [(? & ? & ?)| ->]; [intuition lia|].
        rewrite close_sym, Hc. split_and!; [lia|done|lia|lia].
      * intros (? & ? & ? & ?). destruct (decide (m = i)); [by right|left].
        split_and!; [done..|lia].
    + exists (l ++ [j0]). rewrite list_lookup_alter_ne by lia.
      rewrite list_lookup_alter_eq, Hl. split; [done|]. split.
      { apply sorted_lt_snoc; [done|]. intros y Hy. apply Hm in Hy.
        unfold pair_read in Hy. lia. }
      intros m. rewrite elem_of_app, list_elem_of_singleton, Hm.
      unfold pair_read. split.
      * intros [(? & ? & ?)| ->]; [intuition lia|].
        rewrite Hc. split_and!; [lia|done|lia|lia].
      * intros (? & ? & ? & ?). destruct (decide (m = j0)); [by right|left].
        split_and!; [done..|lia].
    + exists l. rewrite !list_lookup_alter_ne by lia. split_and!; [done..|].
      intros m. rewrite Hm. unfold pair_read. intuition lia.
  - exists L. split; [by rewrite Nat.add_succ_r|]. split; [done|].
    intros k Hk. destruct (HL k Hk) as (l & Hl & Hs & Hm).
    exists l. split_and!; [done..|]. intros m. rewrite Hm.
    unfold pair_read. split; [intuition lia|].
    intros (? & Hkm & ? & Hr). split_and!; [done..|].
    destruct Hr as [?|[? ?]]; [by left|].
    destruct (decide (k `min` m = j0)) as [Hmin|]; [|right; lia].
    exfalso. assert ((k = i ∧ m = j0) ∨ (k = j0 ∧ m = i)) as [[-> ->]|[-> ->]] by lia.
    + by rewrite Hc in Hkm.
    + by rewrite close_sym, Hc in Hkm.
Qed.

Lemma scan_row_prefix i j0 L :
  i < n → j0 ≤ i → nbr_inv close n i 0 L →
  ∃ L', foldlM (Butina.scan_pair data distThresh i) (L, tri i) (seq 0 j0)
          = Some (L', tri i + j0) ∧ nbr_inv close n i j0 L'.
Proof using close_sym close_irrefl data_close.
  intros Hi Hj Hinv. induction j0 as [|j0 IH].
  - exists L. by rewrite Nat.add_0_r.
  - destruct IH as (L1 & Hrun & Hinv1); [lia|].
    destruct (scan_pair_inv i j0 L1) as (L2 & Hstep & Hinv2); [lia..|done|].
    exists L2. split; [|done].
    rewrite seq_S, foldlM_app, Hrun. simpl. by rewrite Hstep.
Qed.

Lemma scan_rows_prefix i0 :
  i0 ≤ n →
  ∃ L, foldlM (Butina.scan_row data distThresh) (replicate n [], 0) (seq 0 i0)
         = Some (L, tri i0) ∧ nbr_inv close n i0 0 L.
Proof using close_sym close_irrefl data_close.
  intros Hi. induction i0 as [|i0 IH].
  - exists (replicate n []). split; [done|apply nbr_inv_init].
  - destruct IH as (L1 & Hrun & Hinv1); [lia|].
    destruct (scan_row_prefix i0 i0 L1) as (L2 & Hrow & Hinv2); [lia..|done|].
    exists L2. split; [|by apply nbr_inv_next_row].
    rewrite seq_S, foldlM_app, Hrun. simpl.
    unfold Butina.scan_row. by rewrite Hrow.
Qed.

(** The routine's neighbour lists are the increasing lists of neighbours. *)
Lemma neighbour_lists_spec :
  Butina.neighbour_lists data n distThresh
  = Some (neighbours close n <$> seq 0 n).
Proof using close_sym close_irrefl data_close.
  destruct (scan_rows_prefix n) as (L & Hrun & Hlen & HL); [done|].
  unfold Butina.neighbour_lists. rewrite Hrun. simpl. f_equal.
  apply list_eq_same_length with n; [by rewrite length_fmap, length_seq|done|].
  intros k l1 l2 Hk Hl1 Hl2.
  rewrite list_lookup_fmap, lookup_seq_lt in Hl2 by done.
  simpl in Hl2. injection Hl2 as <-.
  destruct (HL k Hk) as (l & Hl & Hs & Hm).
  rewrite Hl in Hl1. injection Hl1 as <-.
  apply sorted_lt_unique; [done|apply sorted_lt_filter, sorted_lt_seq|].
  intros m. rewrite Hm. unfold neighbours.
  rewrite list_elem_of_filter, elem_of_seq. unfold pair_read.
  split.
  - intros (? & ? & ?). split; [done|lia].
  - intros [Hc ?]. split_and!; [lia|done| |lia].
    intros ->. by rewrite close_irrefl in Hc.
Qed.

End NeighbourLists.

(** ** The greedy pass of the clustering routine *)

Lemma filter_agree {A} (P1 P2 : A → Prop)
    `{!∀ x, Decision (P1 x)} `{!∀ x, Decision (P2 x)} (l : list A) :
  (∀ x, x ∈ l → (P1 x ↔ P2 x)) → filter P1 l = filter P2 l.
Proof.
  induction l as [|a l IH]; intros Hag; [done|].
  assert (filter P1 l = filter P2 l) as IH'.
  { apply IH. intros x Hx. apply Hag. by right. }
  destruct (decide (P1 a)) as [Ha|Ha].
  - rewrite !filter_cons_True; [by f_equal|by apply Hag; [left|]|done].
  - rewrite !filter_cons_False; [done| |done].
    intros ?. apply Ha, Hag; [left|done].
Qed.

Lemma flag_insert seen a x :
  a < length seen →
  Butina.flag (<[a := true]> seen) x = true ↔ (Butina.flag seen x = true ∨ x = a).
Proof.
  intros Ha. unfold Butina.flag. destruct (decide (a = x)) as [->|Hne].
  - rewrite list_lookup_insert_eq by done. simpl. tauto.
  - rewrite list_lookup_insert_ne by done. intuition congruence.
Qed.

Lemma absorb_spec nbrs acc seen :
  NoDup nbrs → (∀ x, x ∈ nbrs → x < length seen) →
  (foldl Butina.absorb (acc, seen) nbrs).1
    = acc ++ filter (λ q, Butina.flag seen q = false) nbrs ∧
  length (foldl Butina.absorb (acc, seen) nbrs).2 = length seen ∧
  ∀ x, Butina.flag (foldl Butina.absorb (acc, seen) nbrs).2 x = true
       ↔ (Butina.flag seen x = true ∨ x ∈ nbrs).
Proof.
  intros Hnd. revert acc seen.
  induction Hnd as [|a nbrs Ha Hnd IH]; intros acc seen Hlt.
  - simpl. rewrite app_nil_r. split_and!; [done..|].
    intros x. rewrite elem_of_nil. tauto.
  - change (foldl Butina.absorb (acc, seen) (a :: nbrs))
      with (foldl Butina.absorb (Butina.absorb (acc, seen) a) nbrs).
    assert (Butina.absorb (acc, seen) a
            = if Butina.flag seen a then (acc, seen)
              else (acc ++ [a], <[a := true]> seen)) as -> by done.
    destruct (Butina.flag seen a) eqn:Hfa.
    + destruct (IH acc seen) as (H1 & H2 & H3).
      { intros x Hx. apply Hlt. by right. }
      rewrite filter_cons_False by (rewrite Hfa; done).
      split_and!; [done..|]. intros x. rewrite H3, elem_of_cons.
      split; [tauto|]. intros [?|[->|?]]; auto.
    + assert (a < length seen) as Halt by (apply Hlt; left).
      destruct (IH (acc ++ [a]) (<[a := true]> seen)) as (H1 & H2 & H3).
      { intros x Hx. rewrite length_insert. apply Hlt. by right. }
      rewrite filter_cons_True by done.
      split_and!.
      * rewrite H1, <-app_assoc. simpl. do 2 f_equal.
        apply filter_agree. intros x Hx.
        assert (x ≠ a) by (intros ->; done).
        pose proof (flag_insert seen a x Halt) as Hfi.
        destruct (Butina.flag (<[a := true]> seen) x), (Butina.flag seen x);
          intuition congruence.
      * by rewrite H2, length_insert.
      * intros x. rewrite H3, flag_insert, elem_of_cons by done. tauto.
Qed.

Section Sweep.

Variable n : nat.
Variable close : nat → nat → bool.

Hypothesis close_sym : ∀ i j, close i j = close j i.
Hypothesis close_irrefl : ∀ i, close i i = false.

Lemma neighbours_lookup k :
  k < n → (neighbours close n <$> seq 0 n) !! k = Some (neighbours close n k).
Proof using Type.
  intros Hk. by rewrite list_lookup_fmap, lookup_seq_lt.
Qed.

Lemma sweep_reference tLists seen assigned :
  NoDup (tLists.*2) → (∀ x, x ∈ tLists.*2 → x < n) →
  sweep_inv close n seen assigned (tLists.*2) →
  Butina.sweep (neighbours close n <$> seq 0 n) tLists seen
  = sphere_exclusion close (seq 0 n) (tLists.*2) assigned.
Proof using close_sym close_irrefl.
  revert seen assigned.
  induction tLists as [|[c idx] tLists IH]; intros seen assigned Hnd Hlt Hinv;
    [done|].
  simpl in *. apply NoDup_cons in Hnd as [Hidx Hnd].
  destruct Hinv as (Hlen & Hflag & Hcent).
  assert (idx < n) as Hidxn by (apply Hlt; left).
  destruct (Butina.flag seen idx) eqn:Hfi.
  - rewrite bool_decide_eq_true_2 by auto.
    apply IH; [done|intros; apply Hlt; by right|].
    split_and!; [done..|]. intros x Hx Hfx.
    destruct (Hcent x Hx Hfx) as [Hq ?]. split; [|done].
    intros ?. apply Hq. by right.
  - assert (idx ∉ assigned) as Hna.
    { intros Hin. destruct (Hcent idx Hin Hfi) as [Hq _]. apply Hq. left. }
    rewrite bool_decide_eq_false_2 by done.
    rewrite neighbours_lookup by done. simpl.
    destruct (absorb_spec (neighbours close n idx) [idx] seen) as (H1 & H2 & H3).
    { apply NoDup_filter, NoDup_seq. }
    { intros x [_ Hx%elem_of_seq]%list_elem_of_filter. lia. }
    assert (filter (λ q, Butina.flag seen q = false) (neighbours close n idx)
            = filter (λ q, close idx q ∧ q ∉ idx :: assigned) (seq 0 n)) as Hmem.
    { unfold neighbours. rewrite list_filter_filter. apply filter_agree.
      intros q Hq. apply elem_of_seq in Hq. split.
      - intros [Hfq Hc]. split; [done|].
        intros [->|Hin]%elem_of_cons.
        + by rewrite close_irrefl in Hc.
        + destruct (Hcent q Hin Hfq) as [_ Hall].
          rewrite Hall in Hfi; [done|done|]. by rewrite close_sym.
      - intros [Hc Hnin]. split; [|done].
        destruct (Butina.flag seen q) eqn:Hfq; [|done].
        exfalso. apply Hnin. right. auto. }
    rewrite H1. simpl. rewrite Hmem. f_equal.
    apply IH; [done|intros; apply Hlt; by right|].
    split_and!; [by rewrite H2| |].
    + intros x Hx. apply H3 in Hx as [Hx|Hx].
      * right. apply elem_of_app. right. auto.
      * destruct (Butina.flag seen x) eqn:Hfx.
        { right. apply elem_of_app. right. auto. }
        right. apply elem_of_app. left. rewrite <-Hmem.
        apply list_elem_of_filter. done.
    + intros x Hx Hfx.
      assert (Butina.flag seen x = false) as Hfx0.
      { destruct (Butina.flag seen x) eqn:E; [|done].
        rewrite (proj2 (H3 x)) in Hfx; [done|by left]. }
      apply elem_of_cons in Hx as [->|Hx]; [|apply elem_of_app in Hx as [Hx|Hx]].
      * split; [done|]. intros y Hy Hc. apply H3. right.
        apply list_elem_of_filter. split; [done|]. apply elem_of_seq. lia.
      * rewrite <-Hmem in Hx. apply list_elem_of_filter in Hx as [_ Hx].
        rewrite (proj2 (H3 x)) in Hfx; [done|by right].
      * destruct (Hcent x Hx Hfx0) as [Hq Hall]. split.
        { intros ?. apply Hq. by right. }
        intros y Hy Hc. apply H3. left. auto.
Qed.

End Sweep.

(** ** The processing order *)

Lemma ranking_indices (L : list (list nat)) :
  (Butina.ranking L).*2 ≡ₚ seq 0 (length L).
Proof.
  unfold Butina.ranking. rewrite merge_sort_Permutation, fmap_imap.
  change (imap (λ (j : nat) (_ : list nat), id j) L ≡ₚ seq 0 (length L)).
  by rewrite imap_seq_0, list_fmap_id.
Qed.

Lemma processing_order_perm close n : processing_order close n ≡ₚ seq 0 n.
Proof.
  unfold processing_order. rewrite ranking_indices.
  by rewrite length_fmap, length_seq.
Qed.

(** ** The reference algorithm yields a partition *)

Lemma filter_none {A} (P : A → Prop) `{!∀ x, Decision (P x)} (l : list A) :
  (∀ x, x ∈ l → ¬ P x) → filter P l = [].
Proof.
  induction l as [|a l IH]; intros Hl; [done|].
  rewrite filter_cons_False by (apply Hl; left).
  apply IH. intros x Hx. apply Hl. by right.
Qed.

Lemma filter_all {A} (P : A → Prop) `{!∀ x, Decision (P x)} (l : list A) :
  (∀ x, x ∈ l → P x) → filter P l = l.
Proof.
  induction l as [|a l IH]; intros Hl; [done|].
  rewrite filter_cons_True by (apply Hl; left).
  f_equal. apply IH. intros x Hx. apply Hl. by right.
Qed.

Lemma sphere_exclusion_covers close points order assigned :
  NoDup points → (∀ x, x ∈ order → x ∈ points) →
  (∀ x, x ∈ points → x ∉ assigned → x ∈ order) →
  concat (sphere_exclusion close points order assigned)
  ≡ₚ filter (λ x, x ∉ assigned) points.
Proof.
  intros Hnd. revert assigned.
  induction order as [|p rest IH]; intros assigned Hsub Hcov.
  - simpl. rewrite filter_none; [done|].
    intros x Hx Hna. by apply Hcov, elem_of_nil in Hna.
  - simpl. case_bool_decide as Hp.
    + apply IH; [intros; apply Hsub; by right|].
      intros x Hx Hna. pose proof (Hcov x Hx Hna) as Hin.
      apply elem_of_cons in Hin as [->|?]; [|done]. by destruct Hna.
    + simpl. rewrite IH.
      * apply NoDup_Permutation.
        -- apply NoDup_cons. split.
           { rewrite elem_of_app, !list_elem_of_filter.
             intros [[[_ Hn] _]|[Hn _]]; apply Hn; left. }
           apply NoDup_app. split_and!; [by apply NoDup_filter| |by apply NoDup_filter].
           intros y [[Hc Hy] Hyp]%list_elem_of_filter [Hn _]%list_elem_of_filter.
           apply Hn. right. apply elem_of_app. left.
           by apply list_elem_of_filter.
        -- by apply NoDup_filter.
        -- intros x. split.
           ++ intros Hx. apply list_elem_of_filter.
              apply elem_of_cons in Hx as [->|Hx]; [split; [done|apply Hsub; left]|].
              apply elem_of_app in Hx as [Hx|Hx];
                apply list_elem_of_filter in Hx as [Hx1 Hx2]; (split; [|done]).
              ** destruct Hx1 as [_ Hn]. intros ?. apply Hn. by right.
              ** intros ?. apply Hx1. right. apply elem_of_app. by right.
           ++ intros [Hna Hx]%list_elem_of_filter.
              destruct (decide (x = p)) as [->|Hne]; [left|right].
              apply elem_of_app. destruct (close p x) eqn:Hc.
              ** left. apply list_elem_of_filter. split; [|done].
                 split; [by rewrite Hc|]. by intros [?|?]%elem_of_cons.
              ** right. apply list_elem_of_filter. split; [|done].
                 intros [?|Hin]%elem_of_cons; [done|].
                 apply elem_of_app in Hin as [Hin|Hin]; [|done].
                 apply list_elem_of_filter in Hin as [[Hc' _] _].
                 by rewrite Hc in Hc'.
      * intros; apply Hsub; by right.
      * intros x Hx Hna.
        destruct (decide (x = p)) as [->|Hne]; [exfalso; apply Hna; left|].
        assert (x ∉ assigned) as Hna'.
        { intros ?. apply Hna. right. apply elem_of_app. by right. }
        pose proof (Hcov x Hx Hna') as Hin.
        by apply elem_of_cons in Hin as [?|?].
Qed.

Lemma sphere_exclusion_partition close n order :
  order ≡ₚ seq 0 n →
  concat (sphere_exclusion close (seq 0 n) order []) ≡ₚ seq 0 n.
Proof.
  intros Hperm. rewrite sphere_exclusion_covers.
  - rewrite filter_all; [done|]. intros x _. apply not_elem_of_nil.
  - apply NoDup_seq.
  - intros x. by rewrite Hperm.
  - intros x ? _. by rewrite Hperm.
Qed.

(** ** The distance list of [cluster_fingerprints] *)

Lemma tri_mono i k : i ≤ k → tri i ≤ tri k.
Proof. induction 1; simpl; lia. Qed.

Section DistanceList.

Context {ExplicitBitVect : Type}.
Variable TanimotoSimilarity : ExplicitBitVect → ExplicitBitVect → Q.
Variable fps : list ExplicitBitVect.

(** After the rows [1 .. m] the list holds the condensed lower triangle of
    the first [m + 1] fingerprints. *)
Lemma distance_rows m :
  m < length fps →
  length (foldl (extend_dists TanimotoSimilarity fps) [] (seq 1 m)) = tri (S m) ∧
  ∀ i j a b, j < i → i ≤ m → fps !! i = Some a → fps !! j = Some b →
    foldl (extend_dists TanimotoSimilarity fps) [] (seq 1 m) !! (tri i + j)
    = Some (1 - TanimotoSimilarity a b)%Q.
Proof using Type.
  induction m as [|m IH]; intros Hm.
  - split; [done|]. intros; lia.
  - destruct IH as [Hlen Hrows]; [lia|].
    destruct (lookup_lt_is_Some_2 fps (S m) Hm) as [fp Hfp].
    rewrite seq_S, foldl_snoc. simpl "+".
    unfold extend_dists at 1 3. rewrite Hfp.
    unfold BulkTanimotoSimilarity. split.
    + rewrite length_app, !length_fmap, length_take_le, Hlen by lia.
      simpl. lia.
    + intros i j a b Hj Hi Ha Hb.
      destruct (decide (i = S m)) as [->|Hne].
      * rewrite lookup_app_r by (rewrite Hlen; simpl; lia).
        rewrite Hlen. replace (tri (S m) + j - tri (S m)) with j by lia.
        rewrite !list_lookup_fmap, lookup_take_lt, Hb by done. simpl.
        rewrite Hfp in Ha. by injection Ha as ->.
      * rewrite lookup_app_l.
        { apply Hrows; [done|lia|done..]. }
        rewrite Hlen. pose proof (tri_mono (S i) (S m)). simpl in *. lia.
Qed.

Lemma distance_list_lookup i j a b :
  j < i → fps !! i = Some a → fps !! j = Some b →
  distance_list TanimotoSimilarity fps !! (tri i + j)
  = Some (1 - TanimotoSimilarity a b)%Q.
Proof using Type.
  intros Hj Ha Hb. pose proof (lookup_lt_Some _ _ _ Ha) as Hi.
  unfold distance_list.
  destruct (distance_rows (length fps - 1)) as [_ Hrows]; [lia|].
  apply Hrows; [done|lia|done..].
Qed.

Variable cutoff : Q.

Lemma within_cutoff_sym p q :
  within_cutoff TanimotoSimilarity fps cutoff p q
  = within_cutoff TanimotoSimilarity fps cutoff q p.
Proof using Type.
  unfold within_cutoff, pair_distance.
  rewrite (Nat.max_comm p q), (Nat.min_comm p q).
  f_equal. apply bool_decide_ext. naive_solver.
Qed.

Lemma within_cutoff_irrefl p :
  within_cutoff TanimotoSimilarity fps cutoff p p = false.
Proof using Type.
  unfold within_cutoff. by rewrite bool_decide_eq_false_2 by naive_solver.
Qed.

Lemma distance_list_close i j :
  j < i → i < length fps →
  ∃ q, distance_list TanimotoSimilarity fps !! (tri i + j) = Some q ∧
       Qle_bool q cutoff = within_cutoff TanimotoSimilarity fps cutoff i j.
Proof using Type.
  intros Hj Hi.
  destruct (lookup_lt_is_Some_2 fps i Hi) as [a Ha].
  destruct (lookup_lt_is_Some_2 fps j) as [b Hb]; [lia|].
  eexists. split; [by apply distance_list_lookup|].
  unfold within_cutoff, pair_distance.
  rewrite Nat.max_l, Nat.min_r, Ha, Hb by lia.
  by rewrite bool_decide_eq_true_2 by lia.
Qed.

(** [cluster_fingerprints] returns, and what it returns is the reference
    algorithm run in the toolkit's processing order. *)
Lemma cluster_fingerprints_reference :
  cluster_fingerprints TanimotoSimilarity fps cutoff
  = Some (sphere_exclusion (within_cutoff TanimotoSimilarity fps cutoff)
            (seq 0 (length fps))
            (processing_order (within_cutoff TanimotoSimilarity fps cutoff)
               (length fps))
            []).
Proof using Type.
  unfold cluster_fingerprints, Butina.ClusterData.
  rewrite (neighbour_lists_spec _ _ _ (within_cutoff TanimotoSimilarity fps cutoff));
    [|apply within_cutoff_sym|apply within_cutoff_irrefl|apply distance_list_close].
  simpl. f_equal.
  pose proof (processing_order_perm (within_cutoff TanimotoSimilarity fps cutoff)
                (length fps)) as Hperm.
  apply sweep_reference;
    [apply within_cutoff_sym|apply within_cutoff_irrefl|..].
  - fold (processing_order (within_cutoff TanimotoSimilarity fps cutoff) (length fps)).
    rewrite Hperm. apply NoDup_seq.
  - intros x Hx.
    fold (processing_order (within_cutoff TanimotoSimilarity fps cutoff) (length fps)) in Hx.
    rewrite Hperm in Hx. apply elem_of_seq in Hx. lia.
  - split; [apply length_replicate|]. split.
    + intros x. unfold Butina.flag.
      destruct (replicate (length fps) false !! x) as [b|] eqn:E; [|done].
      apply lookup_replicate in E as [-> _]. done.
    + intros x Hx. by apply elem_of_nil in Hx.
Qed.

End DistanceList.

(** ** Partitions *)

Lemma concat_elem_of {A} (cs : list (list A)) (i : A) :
  i ∈ concat cs ↔ ∃ k c, cs !! k = Some c ∧ i ∈ c.
Proof.
  induction cs as [|c cs IH]; simpl.
  - split; [by intros ?%elem_of_nil|]. by intros (k & c & ? & _).
  - rewrite elem_of_app, IH. split.
    + intros [?|(k & c' & ? & ?)]; [by exists 0, c|by exists (S k), c'].
    + intros ([|k] & c' & Hk & ?); simpl in Hk; [left; congruence|right; eauto].
Qed.

Lemma concat_NoDup_unique (cs : list (list nat)) i k1 k2 c1 c2 :
  NoDup (concat cs) → cs !! k1 = Some c1 → cs !! k2 = Some c2 →
  i ∈ c1 → i ∈ c2 → k1 = k2.
Proof.
  revert k1 k2. induction cs as [|c cs IH]; intros k1 k2 Hnd H1 H2 Hi1 Hi2;
    [done|].
  simpl in Hnd. apply NoDup_app in Hnd as (_ & Hdisj & Hnd).
  destruct k1 as [|k1], k2 as [|k2]; simpl in *; [done| | |f_equal; eauto].
  - injection H1 as ->. destruct (Hdisj i Hi1).
    apply concat_elem_of. eauto.
  - injection H2 as ->. destruct (Hdisj i Hi2).
    apply concat_elem_of. eauto.
Qed.

Lemma permutation_partition_of n cs : concat cs ≡ₚ seq 0 n → partition_of n cs.
Proof.
  intros Hperm. split; [done|]. intros i Hi.
  assert (i ∈ concat cs) as Hin by (rewrite Hperm, elem_of_seq; lia).
  apply concat_elem_of in Hin as (k & c & Hk & Hc).
  exists k, c. split_and!; [done..|]. intros k' c' Hk' Hc'.
  apply (concat_NoDup_unique cs i k' k c' c); [|done..].
  rewrite Hperm. apply NoDup_seq.
Qed.

(** ** Shape of the clusters of the reference algorithm *)

Lemma sphere_exclusion_singletons close points order assigned :
  (∀ p q, p ∈ order → q ∈ points → close p q = false) →
  Forall (λ c, length c = 1) (sphere_exclusion close points order assigned).
Proof.
  revert assigned. induction order as [|p rest IH]; intros assigned Hfar;
    simpl; [constructor|].
  assert (∀ p q, p ∈ rest → q ∈ points → close p q = false) as Hrest.
  { intros ????. apply Hfar; [by right|done]. }
  case_bool_decide; [by apply IH|].
  constructor; [|by apply IH].
  simpl. rewrite filter_none; [done|].
  intros q Hq [Hc _]. rewrite Hfar in Hc; [done|left|done].
Qed.

Lemma filter_and_length {A} (P Q : A → Prop)
    `{!∀ x, Decision (P x)} `{!∀ x, Decision (Q x)} (l : list A) :
  length (filter (λ x, P x ∧ Q x) l) ≤ length (filter P l).
Proof.
  induction l as [|a l IH]; [done|].
  destruct (decide (P a)) as [HP|HP].
  - rewrite (filter_cons_True P) by done. simpl.
    destruct (decide (Q a)).
    + rewrite filter_cons_True by done. simpl. lia.
    + rewrite filter_cons_False by tauto. lia.
  - rewrite (filter_cons_False P) by done. rewrite filter_cons_False by tauto.
    done.
Qed.

(** Every cluster starts with its centroid, a point of the order; the other
    members are within the cutoff of the centroid, and there are at most as
    many of them as the centroid has neighbours. *)
Lemma sphere_exclusion_centroids close n order assigned :
  Forall (λ c, ∃ rest, c = centroid c :: rest ∧ centroid c ∈ order ∧
                 Forall (λ q, close (centroid c) q = true) rest ∧
                 length rest ≤ length (neighbours close n (centroid c)))
    (sphere_exclusion close (seq 0 n) order assigned).
Proof.
  revert assigned. induction order as [|p rest IH]; intros assigned;
    simpl; [constructor|].
  assert (∀ assigned,
    Forall (λ c, ∃ rest0, c = centroid c :: rest0 ∧ centroid c ∈ p :: rest ∧
                 Forall (λ q, close (centroid c) q = true) rest0 ∧
                 length rest0 ≤ length (neighbours close n (centroid c)))
      (sphere_exclusion close (seq 0 n) rest assigned)) as IH'.
  { intros a. eapply Forall_impl; [apply IH|].
    intros c (r & ? & ? & ? & ?). exists r. split_and!; [done|by right|done..]. }
  case_bool_decide; [apply IH'|].
  constructor; [|apply IH'].
  eexists. split; [reflexivity|]. simpl. split_and!; [left| |].
  - apply Forall_forall. intros q [[Hc _] _]%list_elem_of_filter.
    by apply Is_true_true.
  - apply filter_and_length.
Qed.

Lemma sphere_exclusion_order (R : relation nat) close points order assigned :
  StronglySorted R order →
  StronglySorted (λ c1 c2, R (centroid c1) (centroid c2))
    (sphere_exclusion close points order assigned) ∧
  Forall (λ c, centroid c ∈ order) (sphere_exclusion close points order assigned).
Proof.
  intros Hs. revert assigned.
  induction Hs as [|p rest Hs IH Hp]; intros assigned; simpl;
    [split; constructor|].
  assert (∀ a, Forall (λ c, centroid c ∈ p :: rest)
                 (sphere_exclusion close points rest a)) as Hin.
  { intros a. eapply Forall_impl; [apply IH|]. intros c ?. by right. }
  case_bool_decide; [split; [apply IH|apply Hin]|].
  split.
  - constructor; [apply IH|].
    eapply Forall_impl; [apply (IH _)|]. intros c Hc. simpl.
    rewrite Forall_forall in Hp. auto.
  - constructor; [left|apply Hin].
Qed.

(** ** The processing order is by neighbour count *)

#[local] Instance rank_ge_total : Total Butina.rank_ge.
Proof. intros [a1 a2] [b1 b2]. unfold Butina.rank_ge. simpl. lia. Qed.

#[local] Instance rank_ge_trans : Transitive Butina.rank_ge.
Proof.
  intros [a1 a2] [b1 b2] [c1 c2]. unfold Butina.rank_ge. simpl. lia.
Qed.

Lemma strongly_sorted_fmap {A B} (R : relation A) (R' : relation B)
    (f : A → B) (l : list A) :
  (∀ a b, a ∈ l → b ∈ l → R a b → R' (f a) (f b)) →
  StronglySorted R l → StronglySorted R' (f <$> l).
Proof.
  intros HR Hs. induction Hs as [|a l Hs IH Ha]; simpl; constructor.
  - apply IH. intros x y ??. apply HR; by right.
  - apply Forall_fmap, Forall_forall. intros b Hb. simpl.
    rewrite Forall_forall in Ha. apply HR; [left|by right|auto].
Qed.

Lemma ranking_entries (L : list (list nat)) c x :
  (c, x) ∈ Butina.ranking L → ∃ y, L !! x = Some y ∧ c = length y.
Proof.
  unfold Butina.ranking. rewrite merge_sort_Permutation.
  intros (i & Hi)%list_elem_of_lookup.
  apply list_lookup_imap_Some in Hi as (y & Hy & Heq).
  injection Heq as -> ->. eauto.
Qed.

Lemma processing_order_sorted close n :
  StronglySorted
    (λ p q, length (neighbours close n q) ≤ length (neighbours close n p))
    (processing_order close n).
Proof.
  unfold processing_order.
  apply (strongly_sorted_fmap Butina.rank_ge); [|apply StronglySorted_merge_sort; apply _].
  intros [c1 x1] [c2 x2] H1 H2 Hge. simpl.
  apply ranking_entries in H1 as (y1 & Hy1 & ->).
  apply ranking_entries in H2 as (y2 & Hy2 & ->).
  apply list_lookup_fmap_Some in Hy1 as (k1 & -> & Hk1).
  apply list_lookup_fmap_Some in Hy2 as (k2 & -> & Hk2).
  apply lookup_seq in Hk1 as [-> _]. apply lookup_seq in Hk2 as [-> _].
  unfold Butina.rank_ge in Hge. simpl in *. lia.
Qed.

(* ================================================================== *)
(** * The claims on fingerprint clustering *)

(** C1.  For every list of fingerprints and every cutoff in (0, 1], the
    clustering that [cluster_fingerprints] returns is a partition of the
    input positions [0 .. n-1]: the concatenation of the clusters is a
    rearrangement of the positions, so that no position is missing or
    repeated, and every position lies in exactly one cluster. *)
Theorem cluster_fingerprints_partition {ExplicitBitVect : Type}
    (TanimotoSimilarity : ExplicitBitVect → ExplicitBitVect → Q)
    (fps : list ExplicitBitVect) (cutoff : Q) :
  (0 < cutoff)%Q → (cutoff <= 1)%Q →
  ∃ cs, cluster_fingerprints TanimotoSimilarity fps cutoff = Some cs ∧
        partition_of (length fps) cs.
Proof.
  intros _ _. eexists. split; [apply cluster_fingerprints_reference|].
  apply permutation_partition_of, sphere_exclusion_partition,
    processing_order_perm.
Qed.

Lemma cluster_fingerprints_partition_witness :
  ∃ cs, cluster_fingerprints tanimoto seven_fingerprints (7 # 8) = Some cs ∧
        partition_of 7 cs.
Proof.
  apply (cluster_fingerprints_partition tanimoto seven_fingerprints (7 # 8));
    reflexivity || (intros H; discriminate H).
Defined.

(** C3.  For every list of fingerprints and cutoff, [cluster_fingerprints]
    returns the clusters of the reference greedy sphere exclusion: the
    positions are visited in one fixed order, a rearrangement of [0 .. n-1]
    settled before the first cluster is formed, and every position that is
    still unassigned becomes the centroid of a new cluster that takes all
    not yet assigned positions within the cutoff of it. *)
Theorem cluster_fingerprints_refines_sphere_exclusion {ExplicitBitVect : Type}
    (TanimotoSimilarity : ExplicitBitVect → ExplicitBitVect → Q)
    (fps : list ExplicitBitVect) (cutoff : Q) :
  let close := within_cutoff TanimotoSimilarity fps cutoff in
  let n := length fps in
  processing_order close n ≡ₚ seq 0 n ∧
  cluster_fingerprints TanimotoSimilarity fps cutoff
  = Some (sphere_exclusion close (seq 0 n) (processing_order close n) []).
Proof.
  split; [apply processing_order_perm|apply cluster_fingerprints_reference].
Qed.

(** ** Bit vectors at distance zero *)

Lemma on_bits_cons x a :
  on_bits (x :: a) = (if x then 1 else 0) + on_bits a.
Proof. unfold on_bits. rewrite filter_cons. by destruct x. Qed.

Lemma common_bits_cons x a y b :
  common_bits (x :: a) (y :: b) = (if x && y then 1 else 0) + common_bits a b.
Proof.
  unfold common_bits. simpl zip. rewrite filter_cons. by destruct x, y.
Qed.

Lemma common_le_ones (a b : list bool) :
  common_bits a b ≤ on_bits a ∧ common_bits a b ≤ on_bits b.
Proof.
  revert b. induction a as [|x a IH]; intros [|y b];
    try (unfold common_bits; simpl; lia).
  rewrite common_bits_cons, !on_bits_cons. specialize (IH b).
  destruct x, y; simpl; lia.
Qed.

Lemma common_eq_ones (a b : list bool) :
  length a = length b →
  common_bits a b = on_bits a → common_bits a b = on_bits b → a = b.
Proof.
  revert b. induction a as [|x a IH]; intros [|y b] Hlen; try done.
  pose proof (common_le_ones a b) as [Hl Hr].
  rewrite common_bits_cons, !on_bits_cons.
  destruct x, y; simpl; intros H1 H2; try lia; f_equal; apply IH;
    simpl in Hlen; lia.
Qed.

Lemma tanimoto_distance_zero (a b : list bool) :
  length a = length b →
  Qle_bool (1 - tanimoto a b) 0 = true → a = b.
Proof.
  intros Hlen Hle. apply Qle_bool_iff in Hle.
  pose proof (common_le_ones a b) as [Hl Hr].
  apply common_eq_ones; [done|..]; revert Hle; unfold tanimoto;
    (case_decide as Hu; [lia|]);
    (destruct (Z.of_nat (on_bits a + on_bits b - common_bits a b)) as [|p|p] eqn:Hp;
      [lia| |lia]);
    unfold Qle, Qminus, Qplus, Qopp, Qdiv, Qmult, Qinv, inject_Z; simpl;
    intros Hle; assert (Z.pos p ≤ Z.of_nat (common_bits a b))%Z by lia; lia.
Qed.

Lemma within_cutoff_zero_identical (nBits : nat) (fps : list (list bool)) p q :
  Forall (λ fp, length fp = nBits) fps →
  within_cutoff tanimoto fps 0 p q = true → fps !! p = fps !! q.
Proof.
  intros Hlen. rewrite Forall_forall in Hlen.
  unfold within_cutoff, pair_distance.
  case_bool_decide as Hpq; [simpl|done].
  destruct (fps !! (p `max` q)) as [a|] eqn:Ha; [|done].
  destruct (fps !! (p `min` q)) as [b|] eqn:Hb; [|done].
  intros Hd. apply tanimoto_distance_zero in Hd as ->.
  - destruct (Nat.max_spec p q) as [[? Hmax]|[? Hmax]],
      (Nat.min_spec p q) as [[? Hmin]|[? Hmin]]; try lia;
      rewrite Hmax in Ha; rewrite Hmin in Hb; congruence.
  - rewrite (Hlen a), (Hlen b); [done|by eapply list_elem_of_lookup_2..].
Qed.

Lemma concat_length_singletons {A} (ls : list (list A)) :
  Forall (λ l, length l = 1) ls → length (concat ls) = length ls.
Proof.
  induction 1 as [|l ls Hl _ IH]; simpl; [done|].
  rewrite length_app, Hl, IH. done.
Qed.

(** C5, as the code has it.  With cutoff 0 two positions are within the
    cutoff only when their fingerprints have distance zero, that is, are
    identical.  For fingerprints of one length, [cluster_fingerprints] with
    cutoff 0 returns a partition of the input positions in which every
    member of a cluster has the fingerprint of the centroid; and unless two
    of the input fingerprints are identical, the clusters are singletons,
    one for each input position. *)
Theorem cluster_fingerprints_cutoff_zero (nBits : nat) (fps : list (list bool)) :
  Forall (λ fp, length fp = nBits) fps →
  ∃ cs, cluster_fingerprints tanimoto fps 0 = Some cs ∧
        partition_of (length fps) cs ∧
        Forall (λ c, ∀ q, q ∈ c → fps !! q = fps !! centroid c) cs ∧
        (NoDup fps →
         Forall (λ c, length c = 1) cs ∧ length cs = length fps).
Proof.
  intros Hlen. eexists. split; [apply cluster_fingerprints_reference|].
  set (close := within_cutoff tanimoto fps 0).
  set (cs := sphere_exclusion _ _ _ _).
  assert (concat cs ≡ₚ seq 0 (length fps)) as Hperm
    by apply sphere_exclusion_partition, processing_order_perm.
  split_and!.
  - by apply permutation_partition_of.
  - eapply Forall_impl; [apply sphere_exclusion_centroids|].
    intros c (rest & Hc & _ & Hclose & _) q Hq.
    rewrite Hc in Hq. apply elem_of_cons in Hq as [->|Hq]; [done|].
    rewrite Forall_forall in Hclose. symmetry.
    by eapply within_cutoff_zero_identical, Hclose.
  - intros Hnd.
    assert (Forall (λ c, length c = 1) cs) as Hone.
    { apply sphere_exclusion_singletons. intros p q _ _.
      destruct (within_cutoff tanimoto fps 0 p q) eqn:Hc; [exfalso|done].
      pose proof (within_cutoff_zero_identical nBits fps p q Hlen Hc) as Heq.
      unfold within_cutoff in Hc. case_bool_decide as Hpq; [|done].
      destruct (fps !! p) as [a|] eqn:Ha.
      + symmetry in Heq. by pose proof (NoDup_lookup _ _ _ _ Hnd Ha Heq).
      + unfold pair_distance in Hc. symmetry in Heq.
        destruct (Nat.max_spec p q) as [[_ Hmax]|[_ Hmax]];
          rewrite Hmax in Hc; [rewrite Heq in Hc|rewrite Ha in Hc]; done. }
    split; [done|].
    rewrite <-(concat_length_singletons cs Hone), Hperm. apply length_seq.
Qed.

Lemma cluster_fingerprints_cutoff_zero_witness :
  ∃ cs, cluster_fingerprints tanimoto seven_fingerprints 0 = Some cs ∧
        partition_of 7 cs ∧
        Forall (λ c, length c = 1) cs ∧ length cs = 7.
Proof.
  destruct (cluster_fingerprints_cutoff_zero 10 seven_fingerprints)
    as (cs & Hcs & Hpart & _ & Hone).
  - by repeat constructor.
  - exists cs. split_and!; [done|done|apply Hone..];
      apply (bool_decide_unpack _); by vm_compute.
Defined.

(** C5, as the spec has it, fails: of three fingerprints two are identical
    and the third is not, so the input is not pairwise identical, and yet
    the two identical ones share a cluster at cutoff 0. *)
Lemma cluster_fingerprints_cutoff_zero_counterexample :
  ¬ (∀ a b, a ∈ [bits 3 [1]; bits 3 [1]; bits 3 [2]] →
            b ∈ [bits 3 [1]; bits 3 [1]; bits 3 [2]] → a = b) ∧
  ∃ cs, cluster_fingerprints tanimoto [bits 3 [1]; bits 3 [1]; bits 3 [2]] 0
        = Some cs ∧
        ¬ Forall (λ c, length c = 1) cs.
Proof.
  split.
  - intros Hall.
    assert (bits 3 [1] = bits 3 [2]) as Heq; [|discriminate Heq].
    apply Hall; [left|right; right; left].
  - exists [[1; 0]; [2]]. split; [by vm_compute|].
    intros Hone. inversion Hone as [|? ? Hlen _]. discriminate Hlen.
Qed.

(* ================================================================== *)
(** * Statements and loops *)

Lemma for_each_app {S A} (l k : list A) (body : A → Py S unit) s :
  for_each (l ++ k) body s
  = match for_each l body s with
    | (s', Ok _) => for_each k body s'
    | (s', Raise e) => (s', Raise e)
    end.
Proof.
  revert s. induction l as [|x l IH]; intros s; simpl; [done|].
  unfold bind. destruct (body x s) as [s' [[]|e]]; [apply IH|done].
Qed.

(** A loop whose body only updates the state is a fold of the updates. *)
Lemma for_each_modify {S A} (f : A → S → S) (l : list A) (body : A → Py S unit) s :
  (∀ x s', x ∈ l → body x s' = (f x s', Ok tt)) →
  for_each l body s = (foldl (λ s' x, f x s') s l, Ok tt).
Proof.
  revert s. induction l as [|x l IH]; intros s Hbody; simpl; [done|].
  unfold bind. rewrite Hbody by left.
  apply IH. intros y s' Hy. apply Hbody. by right.
Qed.

Lemma foldl_concat {S A} (g : S → A → S) (ls : list (list A)) s :
  foldl g s (concat ls) = foldl (λ s' l, foldl g s' l) s ls.
Proof.
  revert s. induction ls as [|l ls IH]; intros s; simpl; [done|].
  by rewrite foldl_app, IH.
Qed.

Lemma map_result_fmap {A B C} (f : B → result C) (g : A → B) (l : list A) :
  map_result f (g <$> l) = map_result (λ x, f (g x)) l.
Proof.
  induction l as [|x l IH]; csimpl; [done|]. by rewrite IH.
Qed.

Lemma map_result_length {A B} (f : A → result B) (l : list A) (k : list B) :
  map_result f l = Ok k → length k = length l.
Proof.
  revert k. induction l as [|x l IH]; intros k; simpl.
  - by intros [= <-].
  - destruct (f x); [|done]. destruct (map_result f l); [|done].
    intros [= <-]. simpl. f_equal. by apply IH.
Qed.

Lemma fmap_lookup_default {A} (d : A) (l : list A) :
  (λ i, default d (l !! i)) <$> seq 0 (length l) = l.
Proof.
  apply list_eq. intros i. rewrite list_lookup_fmap.
  destruct (decide (i < length l)) as [Hi|Hi].
  - rewrite lookup_seq_lt by done. simpl.
    destruct (lookup_lt_is_Some_2 l i Hi) as [x ->]. done.
  - rewrite lookup_seq_ge by lia. simpl. symmetry.
    apply lookup_ge_None. lia.
Qed.

(** ** Cells of a labelled column *)

Lemma zip_with_label_insert {A} (labels : list Z) (cells : list A) j lab v :
  NoDup labels → labels !! j = Some lab → length cells = length labels →
  zip_with (λ l c, if decide (l = lab) then v else c) labels cells
  = <[j := v]> cells.
Proof.
  intros Hnd. revert j cells.
  induction Hnd as [|l labels Hl Hnd IH]; intros j cells Hj Hlen; [done|].
  destruct cells as [|c cells]; [done|]. simpl in Hlen.
  destruct j as [|j]; simpl in *.
  - injection Hj as ->. rewrite decide_True by done. f_equal.
    clear IH Hnd. revert cells Hlen.
    induction labels as [|l' labels IH]; intros [|c' cells] Hlen; try done.
    simpl. rewrite decide_False.
    + f_equal. apply IH; [|simpl in Hlen; lia].
      intros ?. apply Hl. by right.
    + intros ->. apply Hl. left.
  - rewrite decide_False.
    + f_equal. apply IH; [done|lia].
    + intros ->. apply Hl. by eapply list_elem_of_lookup_2.
Qed.

Lemma filter_label_unique {A} (labels : list Z) (cells : list A) j lab c :
  NoDup labels → labels !! j = Some lab → cells !! j = Some c →
  filter (λ p, p.1 = lab) (zip labels cells) = [(lab, c)].
Proof.
  intros Hnd. revert j cells.
  induction Hnd as [|l labels Hl Hnd IH]; intros j cells Hj Hc; [done|].
  destruct cells as [|c0 cells]; [done|].
  destruct j as [|j]; simpl in *.
  - injection Hj as ->. injection Hc as ->.
    rewrite filter_cons_True by done. f_equal.
    apply filter_none. intros [l' c'] Hin Heq. simpl in Heq. subst l'.
    apply Hl. apply list_elem_of_lookup in Hin as [i Hi].
    apply lookup_zip_with_Some in Hi as (x & y & [= <- <-] & Hx & _).
    by eapply list_elem_of_lookup_2.
  - rewrite filter_cons_False; [by eapply IH|].
    simpl. intros ->. apply Hl. by eapply list_elem_of_lookup_2.
Qed.

(** ** Columns of a table *)

Section TableFacts.

Context {Mol : Type}.
Implicit Types (df : DataFrame Mol) (cells : list (cell Mol)).
Implicit Types (cols : list (string * list (cell Mol))).

Lemma lookup_column_app_l col cols1 cols2 cells :
  lookup_column col cols1 = Some cells →
  lookup_column col (cols1 ++ cols2) = Some cells.
Proof.
  induction cols1 as [|[name c] cols1 IH]; simpl; [done|].
  case_decide; [done|apply IH].
Qed.

Lemma lookup_column_app_r col cols1 cols2 :
  col ∉ cols1.*1 →
  lookup_column col (cols1 ++ cols2) = lookup_column col cols2.
Proof.
  induction cols1 as [|[name c] cols1 IH]; csimpl; [done|].
  intros Hn. rewrite decide_False.
  - apply IH. intros ?. apply Hn. by right.
  - intros ->. apply Hn. left.
Qed.

Lemma lookup_column_None col cols :
  lookup_column col cols = None ↔ col ∉ cols.*1.
Proof.
  induction cols as [|[name c] cols IH]; csimpl.
  - split; [intros _; apply not_elem_of_nil|done].
  - rewrite not_elem_of_cons. case_decide as Hn.
    + split; [done|]. by intros [? _].
    + rewrite IH. split; [intros ?; split; [congruence|done]|by intros [_ ?]].
Qed.

Lemma lookup_column_replace col col' cells cols :
  lookup_column col'
    ((λ c, if decide (c.1 = col) then (col, cells) else c) <$> cols)
  = if decide (col' = col)
    then (if decide (col ∈ cols.*1) then Some cells else None)
    else lookup_column col' cols.
Proof.
  induction cols as [|[name c] cols IH]; csimpl.
  - by case_decide.
  - rewrite IH. clear IH.
    destruct (decide (name = col)) as [->|Hn]; simpl;
      repeat case_decide; subst; try done;
      match goal with
      | H : _ ∉ _ :: _ |- _ => apply not_elem_of_cons in H as [? ?]; done
      | H : _ ∈ _ :: _ |- _ => apply elem_of_cons in H as [?|?]; done
      end.
Qed.

Lemma column_set_column_eq col cells df :
  column (set_column col cells df) col = Some cells.
Proof.
  unfold column, set_column. simpl. case_decide as Hin.
  - rewrite lookup_column_replace, !decide_True by done. done.
  - rewrite lookup_column_app_r by done. simpl. by rewrite decide_True.
Qed.

Lemma column_set_column_ne col col' cells df :
  col' ≠ col → column (set_column col cells df) col' = column df col'.
Proof.
  intros Hne. unfold column, set_column. simpl. case_decide as Hin.
  - by rewrite lookup_column_replace, decide_False.
  - destruct (lookup_column col' (columns df)) as [c|] eqn:E.
    + by apply lookup_column_app_l.
    + apply lookup_column_None in E.
      rewrite lookup_column_app_r by done. simpl. by rewrite decide_False.
Qed.

Lemma column_names_set_column col cells df x :
  x ∈ column_names (set_column col cells df) ↔ x = col ∨ x ∈ column_names df.
Proof.
  assert (∀ (d : DataFrame Mol) y, y ∈ column_names d ↔ column d y ≠ None)
    as Hin.
  { intros d y. unfold column, column_names. rewrite lookup_column_None.
    destruct (decide (y ∈ (columns d).*1)) as [Hy|Hy]; naive_solver. }
  rewrite !Hin. destruct (decide (x = col)) as [->|Hne].
  - rewrite column_set_column_eq. split; [by left|done].
  - rewrite column_set_column_ne by done. split; [by right|].
    by intros [?|?].
Qed.

Lemma at_set_unique df j lab col v cells :
  NoDup (index df) → index df !! j = Some lab →
  column df col = Some cells → length cells = length (index df) →
  at_set lab col v df = set_column col (<[j := v]> cells) df.
Proof.
  intros Hnd Hj Hcol Hlen. unfold at_set.
  rewrite decide_True by by eapply list_elem_of_lookup_2.
  rewrite Hcol. simpl. f_equal. by apply zip_with_label_insert.
Qed.

Lemma at_get_unique df j lab col cells c :
  NoDup (index df) → index df !! j = Some lab →
  column df col = Some cells → cells !! j = Some c →
  at_get lab col df = Ok c.
Proof.
  intros Hnd Hj Hcol Hc. unfold at_get. rewrite Hcol.
  by rewrite (filter_label_unique _ _ j lab c).
Qed.

End TableFacts.

(** ** The label loop *)

Lemma label_writes_positions (cs : list (list nat)) :
  (label_writes cs).*2 = concat cs.
Proof.
  unfold label_writes.
  transitivity (concat ((λ i, default [] (cs !! i)) <$> seq 0 (length cs)));
    [|by rewrite fmap_lookup_default].
  induction (seq 0 (length cs)) as [|i l IH]; csimpl; [done|].
  rewrite fmap_app, IH. f_equal.
  rewrite <-list_fmap_compose. apply list_fmap_id.
Qed.

Lemma label_writes_elem (cs : list (list nat)) i j :
  (i, j) ∈ label_writes cs ↔ ∃ c, cs !! i = Some c ∧ j ∈ c.
Proof.
  unfold label_writes. rewrite concat_elem_of. split.
  - intros (k & l & Hl & Hij).
    apply list_lookup_fmap_Some in Hl as (i' & -> & Hi').
    apply list_elem_of_fmap in Hij as (j' & [= -> ->] & Hj').
    apply lookup_seq in Hi' as [-> Hi']. simpl in *.
    destruct (lookup_lt_is_Some_2 cs k) as [c Hc]; [lia|].
    rewrite Hc in Hj'. eauto.
  - intros (c & Hc & Hj). exists i, ((λ j, (i, j)) <$> c). split.
    + rewrite list_lookup_fmap, lookup_seq_lt by by eapply lookup_lt_Some.
      simpl. by rewrite Hc.
    + apply list_elem_of_fmap. eauto.
Qed.

Section LabelLoop.

Context {Mol : Type}.
Implicit Types (df : DataFrame Mol) (cells : list (cell Mol)).

Lemma write_labels_length cells ws :
  length (write_labels cells ws) = length cells.
Proof.
  revert cells. induction ws as [|w ws IH]; intros cells; [done|].
  unfold write_labels in *. simpl. by rewrite IH, length_insert.
Qed.

Lemma write_labels_untouched cells ws j :
  j ∉ ws.*2 → write_labels cells ws !! j = cells !! j.
Proof.
  revert cells. induction ws as [|w ws IH]; intros cells Hj; [done|].
  csimpl in Hj. apply not_elem_of_cons in Hj as [Hne Hj].
  unfold write_labels in *. simpl. rewrite IH by done.
  by apply list_lookup_insert_ne.
Qed.

Lemma write_labels_hit cells ws i j :
  NoDup ws.*2 → (i, j) ∈ ws → j < length cells →
  write_labels cells ws !! j = Some (Int (Z.of_nat i)).
Proof.
  revert cells. induction ws as [|w ws IH]; intros cells Hnd Hin Hj.
  - by apply elem_of_nil in Hin.
  - csimpl in Hnd. apply NoDup_cons in Hnd as [Hw Hnd].
    apply elem_of_cons in Hin as [<-|Hin].
    + change (write_labels (<[j := Int (Z.of_nat i)]> cells) ws !! j
              = Some (Int (Z.of_nat i))).
      rewrite write_labels_untouched by done.
      by apply list_lookup_insert_eq.
    + change (write_labels (<[w.2 := Int (Z.of_nat w.1)]> cells) ws !! j
              = Some (Int (Z.of_nat i))).
      apply IH; [done..|]. by rewrite length_insert.
Qed.

(** The assignments of the loop, applied to a table with distinct labels,
    change the cluster column as [write_labels] says and nothing else. *)
Lemma label_loop_frame labels df cluster_column cells ws :
  index df = labels → NoDup labels →
  column df cluster_column = Some cells → length cells = length labels →
  (∀ w, w ∈ ws → w.2 < length labels) →
  let df' :=
    foldl (λ s w, at_set (default 0%Z (labels !! w.2)) cluster_column
                    (Int (Z.of_nat w.1)) s) df ws in
  index df' = labels ∧
  column df' cluster_column = Some (write_labels cells ws) ∧
  column_names df' = column_names df.
Proof.
  intros Hidx Hnd. revert df cells Hidx.
  induction ws as [|w ws IH]; intros df cells Hidx Hcol Hlen Hws; [done|].
  simpl.
  destruct (lookup_lt_is_Some_2 labels w.2) as [lab Hlab].
  { apply Hws. left. }
  rewrite Hlab. simpl.
  rewrite (at_set_unique df w.2 lab cluster_column _ cells)
    by (rewrite ?Hidx; done).
  set (df1 := set_column cluster_column (<[w.2 := Int (Z.of_nat w.1)]> cells) df).
  destruct (IH df1 (<[w.2 := Int (Z.of_nat w.1)]> cells)) as (H1 & H2 & H3).
  - done.
  - apply column_set_column_eq.
  - by rewrite length_insert.
  - intros w' Hw'. apply Hws. by right.
  - split_and!; [done..|].
    rewrite H3. unfold df1, set_column, column_names. simpl.
    rewrite decide_True.
    + rewrite <-list_fmap_compose. apply list_fmap_ext.
      intros ? [name c] _. simpl. by case_decide.
    + destruct (decide (cluster_column ∈ column_names df)) as [|Hn]; [done|].
      apply lookup_column_None in Hn. unfold column in Hcol. congruence.
Qed.

End LabelLoop.

Lemma in_place_run {Mol A} (h : heap Mol) (df : nat) (fr fr' : DataFrame Mol)
    (body : Py (DataFrame Mol) A) (r : result A) :
  h !! df = Some fr → body fr = (fr', r) →
  in_place df body h = (<[df := fr']> h, r).
Proof. intros Hdf Hbody. unfold in_place. by rewrite Hdf, Hbody. Qed.

Section ClusterDataframe.

Context {Mol ExplicitBitVect : Type}.
Variable TanimotoSimilarity : ExplicitBitVect → ExplicitBitVect → Q.
Variable GetMorganFingerprintAsBitVect :
  cell Mol → nat → nat → result ExplicitBitVect.

(** The run of the statements of [cluster_dataframe] on a table with
    distinct row labels whose molecules all have a fingerprint. *)
Lemma cluster_dataframe_body_run (fr : DataFrame Mol)
    (molecule_column cluster_column : string) (cutoff : Q)
    (mols : list (cell Mol)) (fps : list ExplicitBitVect) :
  NoDup (index fr) →
  column fr molecule_column = Some mols →
  length mols = length (index fr) →
  map_result (λ c, GetMorganFingerprintAsBitVect c 2 1024) mols = Ok fps →
  molecule_column ≠ cluster_column → molecule_column ≠ "df_index" →
  ¬ ("index" ∈ cluster_column :: column_names fr ∧
     "level_0" ∈ cluster_column :: column_names fr) →
  ∃ clusters fr',
    cluster_fingerprints TanimotoSimilarity fps cutoff = Some clusters ∧
    partition_of (length (index fr)) clusters ∧
    cluster_dataframe_body TanimotoSimilarity GetMorganFingerprintAsBitVect
      molecule_column cluster_column cutoff fr
    = (fr', Ok tt) ∧
    index fr' = index fr ∧
    column fr' cluster_column
    = Some (write_labels (replicate (length (index fr)) (Int (-1)))
              (label_writes clusters)).
Proof.
  intros Hnd Hmols Hlen Hfps Hmc Hmd Hins.
  set (n := length (index fr)).
  set (fr1 := set_column cluster_column (replicate n (Int (-1))) fr).
  assert (length fps = n) as Hfl.
  { apply map_result_length in Hfps. by rewrite Hfps. }
  pose proof (cluster_fingerprints_reference TanimotoSimilarity fps cutoff) as Hcs.
  set (clusters := sphere_exclusion _ _ _ _) in Hcs.
  assert (concat clusters ≡ₚ seq 0 n) as Hperm.
  { unfold clusters. rewrite Hfl.
    apply sphere_exclusion_partition, processing_order_perm. }
  assert (∀ x, x ∈ column_names fr1 ↔ x ∈ cluster_column :: column_names fr)
    as Hnames1.
  { intros x. unfold fr1. by rewrite column_names_set_column, elem_of_cons. }
  set (name := if decide ("index" ∈ column_names fr1) then "level_0" else "index").
  assert (name ∉ column_names fr1) as Hidx1.
  { unfold name. case_decide as Hi; [|done].
    intros Hl. apply Hins. by rewrite <-!Hnames1. }
  set (step := λ (s : DataFrame Mol) (w : nat * nat),
         at_set (default 0%Z (index fr !! w.2)) cluster_column
           (Int (Z.of_nat w.1)) s).
  exists clusters, (foldl step fr1 (label_writes clusters)).
  destruct (label_loop_frame (index fr) fr1 cluster_column
              (replicate n (Int (-1))) (label_writes clusters))
    as (Hi' & Hc' & _); [done|done|apply column_set_column_eq|
                         apply length_replicate| |].
  { intros [i j] Hw. simpl.
    assert (j ∈ concat clusters) as Hj.
    { rewrite <-label_writes_positions. apply list_elem_of_fmap. by exists (i, j). }
    rewrite Hperm in Hj. apply elem_of_seq in Hj. lia. }
  split_and!; [done|by apply permutation_partition_of| |done|done].
  unfold cluster_dataframe_body.
  unfold bind at 1. unfold get at 1. cbv beta iota.
  unfold bind at 1. unfold modify at 1. cbv beta iota.
  fold n. fold fr1.
  unfold bind at 1. unfold get at 1. cbv beta iota.
  assert (reset_index fr1
          = Ok {| index := Z.of_nat <$> seq 0 n;
                  columns := (name, Int <$> index fr) :: columns fr1 |}) as Hreset.
  { unfold reset_index. fold name. by rewrite decide_False by done. }
  unfold bind at 1. unfold lift at 1. rewrite Hreset. cbv beta iota.
  set (df2 := set_column "df_index" _ _).
  assert (column fr1 molecule_column = Some mols) as Hm1.
  { unfold fr1. by rewrite column_set_column_ne. }
  assert (name ≠ molecule_column) as Hmi.
  { intros Heq. apply Hidx1. rewrite Heq.
    destruct (decide (molecule_column ∈ column_names fr1)) as [|Hn]; [done|].
    apply lookup_column_None in Hn. unfold column in Hm1. congruence. }
  assert (values_tolist df2 molecule_column = Ok ((λ c, [c]) <$> mols)) as Hvals.
  { unfold values_tolist, df2. rewrite column_set_column_ne by done.
    unfold column in *. cbn [columns lookup_column].
    rewrite decide_False by done. by rewrite Hm1. }
  unfold bind at 1. unfold lift at 1. rewrite Hvals. cbv beta iota.
  unfold bind at 1. unfold lift at 1. rewrite map_result_fmap.
  change (map_result _ mols)
    with (map_result (λ c, GetMorganFingerprintAsBitVect c 2 1024) mols).
  rewrite Hfps. cbv beta iota.
  unfold bind at 1. unfold lift at 1. rewrite Hcs. cbv beta iota.
  assert (∀ i j s, j < n →
    (do df_index <- lift (at_get (Z.of_nat j) "df_index" df2);
     match df_index with
     | Int lab => modify (at_set lab cluster_column (Int (Z.of_nat i)))
     | _ => raise (OtherError "KeyError")
     end) s = (step s (i, j), Ok tt)) as Hbody.
  { intros i j s Hj.
    destruct (lookup_lt_is_Some_2 (index fr) j Hj) as [lab Hlab].
    unfold bind, lift.
    rewrite (at_get_unique df2 j (Z.of_nat j) "df_index" (Int <$> index fr) (Int lab)).
    - unfold step. simpl. by rewrite Hlab.
    - unfold df2. simpl. apply NoDup_fmap; [apply _|apply NoDup_seq].
    - unfold df2. simpl. by rewrite list_lookup_fmap, lookup_seq_lt.
    - unfold df2. apply column_set_column_eq.
    - by rewrite list_lookup_fmap, Hlab. }
  rewrite (for_each_modify
             (λ i s, foldl step s ((λ j, (i, j)) <$> default [] (clusters !! i)))).
  - f_equal. unfold label_writes. rewrite foldl_concat, foldl_fmap. done.
  - intros i s Hi.
    rewrite (for_each_modify (λ j s', step s' (i, j))).
    + by rewrite foldl_fmap.
    + intros j s' Hj. apply Hbody.
      assert (j ∈ concat clusters) as Hin.
      { apply concat_elem_of. apply elem_of_seq in Hi.
        destruct (lookup_lt_is_Some_2 clusters i) as [c Hc]; [lia|].
        rewrite Hc in Hj. eauto. }
      rewrite Hperm in Hin. apply elem_of_seq in Hin. lia.
Qed.

(** C2, as the code has it.  For a table whose row labels are distinct but
    otherwise arbitrary (shuffled, filtered, not contiguous) and whose
    molecules all have a fingerprint, [cluster_dataframe] completes, returns
    [None] and leaves the labels as they were; the row at position [p], read
    by its own label, holds the number of the cluster that contains the
    position [p] of its fingerprint; and no row, read by its label, still
    holds -1.  The table may have a column called [index]: the labels then
    go to a column [level_0] of the copy; only when both names are taken can
    the copy not be made. *)
Theorem cluster_dataframe_labels (h : heap Mol) (df : nat) (fr : DataFrame Mol)
    (molecule_column cluster_column : string) (cutoff : Q)
    (mols : list (cell Mol)) (fps : list ExplicitBitVect) :
  h !! df = Some fr →
  NoDup (index fr) →
  column fr molecule_column = Some mols →
  length mols = length (index fr) →
  map_result (λ c, GetMorganFingerprintAsBitVect c 2 1024) mols = Ok fps →
  molecule_column ≠ cluster_column → molecule_column ≠ "df_index" →
  ¬ ("index" ∈ cluster_column :: column_names fr ∧
     "level_0" ∈ cluster_column :: column_names fr) →
  ∃ clusters fr',
    cluster_fingerprints TanimotoSimilarity fps cutoff = Some clusters ∧
    cluster_dataframe TanimotoSimilarity GetMorganFingerprintAsBitVect
      df molecule_column cluster_column cutoff h
    = (<[df := fr']> h, Ok PyNone) ∧
    index fr' = index fr ∧
    (∀ p lab, index fr !! p = Some lab →
       ∃ i c, clusters !! i = Some c ∧ p ∈ c ∧
              at_get lab cluster_column fr' = Ok (Int (Z.of_nat i))) ∧
    (∀ lab, lab ∈ index fr' → at_get lab cluster_column fr' ≠ Ok (Int (-1))).
Proof.
  intros Hdf Hnd Hmols Hlen Hfps Hmc Hmd Hins.
  destruct (cluster_dataframe_body_run fr molecule_column cluster_column cutoff
              mols fps) as (clusters & fr' & Hcs & [Hperm Hpart] & Hrun & Hi' & Hc');
    [done..|].
  assert (∀ p lab, index fr !! p = Some lab →
            ∃ i c, clusters !! i = Some c ∧ p ∈ c ∧
                   at_get lab cluster_column fr' = Ok (Int (Z.of_nat i))) as Hrows.
  { intros p lab Hp. pose proof (lookup_lt_Some _ _ _ Hp) as Hpn.
    destruct (Hpart p Hpn) as (i & c & Hi & Hpc & _).
    exists i, c. split_and!; [done..|].
    eapply (at_get_unique fr' p lab cluster_column);
      [by rewrite Hi'|by rewrite Hi'|done|].
    apply write_labels_hit.
    - rewrite label_writes_positions, Hperm. apply NoDup_seq.
    - apply label_writes_elem. eauto.
    - by rewrite length_replicate. }
  exists clusters, fr'. split_and!; [done| |done|done|].
  - unfold cluster_dataframe, bind.
    by rewrite (in_place_run h df fr fr' _ (Ok tt)).
  - intros lab Hlab. rewrite Hi' in Hlab.
    apply list_elem_of_lookup in Hlab as [p Hp].
    destruct (Hrows p lab Hp) as (i & c & _ & _ & ->).
    intros [= Hneg]. lia.
Qed.

End ClusterDataframe.

Lemma cluster_dataframe_labels_witness :
  ∃ clusters fr',
    cluster_fingerprints tanimoto seven_fingerprints (7 # 8) = Some clusters ∧
    cluster_dataframe tanimoto toy_morgan 1 "mol" "cluster" (7 # 8)
      {[ 1 := indexed_rows ]}
    = (<[1 := fr']> {[ 1 := indexed_rows ]}, Ok PyNone) ∧
    index fr' = index indexed_rows ∧
    (∀ p lab, index indexed_rows !! p = Some lab →
       ∃ i c, clusters !! i = Some c ∧ p ∈ c ∧
              at_get lab "cluster" fr' = Ok (Int (Z.of_nat i))) ∧
    (∀ lab, lab ∈ index fr' → at_get lab "cluster" fr' ≠ Ok (Int (-1))).
Proof.
  apply (cluster_dataframe_labels tanimoto toy_morgan {[ 1 := indexed_rows ]} 1
           indexed_rows "mol" "cluster" (7 # 8)
           (Obj <$> seven_fingerprints) seven_fingerprints).
  - reflexivity.
  - apply (bool_decide_unpack _). by vm_compute.
  - reflexivity.
  - reflexivity.
  - reflexivity.
  - intros H; discriminate H.
  - intros H; discriminate H.
  - apply (bool_decide_unpack _). by vm_compute.
Defined.

(** C2, as the spec has it, fails on a table in which a label is repeated:
    the rows at positions 0 and 1 share the label 70, their fingerprints are
    in different clusters, and both rows end with the number written last
    under the label, so that the row at position 1 holds 2 although its
    fingerprint is in cluster 1. *)
Lemma cluster_dataframe_repeated_labels_counterexample :
  ∃ clusters fr',
    cluster_fingerprints tanimoto
      [bits 10 [0; 1]; bits 10 [2; 3]; bits 10 [4; 5]] (1 # 5) = Some clusters ∧
    cluster_dataframe tanimoto toy_morgan 1 "mol" "cluster" (1 # 5)
      {[ 1 := repeated_rows ]}
    = (<[1 := fr']> {[ 1 := repeated_rows ]}, Ok PyNone) ∧
    column fr' "cluster" = Some [Int 2; Int 2; Int 0] ∧
    ¬ (∀ p i c, clusters !! i = Some c → p ∈ c →
         column fr' "cluster" ≫= (.!! p) = Some (Int (Z.of_nat i))).
Proof.
  exists [[2]; [1]; [0]],
    {| index := [70; 70; 5]%Z;
       columns := [("mol", [Obj (bits 10 [0; 1]); Obj (bits 10 [2; 3]);
                            Obj (bits 10 [4; 5])]);
                   ("cluster", [Int 2; Int 2; Int 0])] |}.
  split_and!; [by vm_compute..|].
  intros Hrows. specialize (Hrows 1 1 [1] eq_refl).
  discriminate Hrows. left.
Qed.

(** ** The loops of calculate_descriptors *)

Section DescriptorLoops.

Context {Mol : Type}.
Implicit Types (df s : DataFrame Mol) (cells : list (cell Mol)).
Implicit Types (cols : list (string * list (cell Mol))).

Lemma replace_absent col cells cols :
  col ∉ cols.*1 →
  (λ c, if decide (c.1 = col) then (col, cells) else c) <$> cols = cols.
Proof.
  induction cols as [|[name c] cols IH]; csimpl; [done|].
  intros [Hne Hn]%not_elem_of_cons. rewrite decide_False by done.
  by rewrite IH.
Qed.

Lemma replace_names col cells cols :
  ((λ c, if decide (c.1 = col) then (col, cells) else c) <$> cols).*1 = cols.*1.
Proof.
  rewrite <-list_fmap_compose. apply list_fmap_ext.
  intros ? [name c] _. simpl. by case_decide.
Qed.

Variables (df : DataFrame Mol) (names : list string).
Hypothesis names_NoDup : NoDup names.
Hypothesis names_fresh : ∀ d, d ∈ names → d ∉ column_names df.

Lemma at_set_desc_inv j k s lab d v :
  desc_inv df names j s → lab ∈ index df → names !! k = Some d → k ≤ j →
  desc_inv df names (j `max` S k) (at_set lab d v s).
Proof using names_NoDup names_fresh.
  intros (Hidx & new & Hcols & Hnew) Hlab Hk Hkj.
  assert (d ∉ column_names df) as Hfresh.
  { apply names_fresh. by eapply list_elem_of_lookup_2. }
  unfold at_set. rewrite decide_True by by rewrite Hidx.
  split; [done|]. unfold set_column, column_names. simpl.
  rewrite Hcols, fmap_app, Hnew. case_decide as Hin.
  - apply elem_of_app in Hin as [?|Hin]; [done|].
    apply list_elem_of_lookup in Hin as [k' Hk'].
    apply lookup_take_Some in Hk' as [Hk' Hlt].
    assert (k' = k) as -> by by eapply NoDup_lookup.
    eexists. rewrite fmap_app, replace_absent by done. split; [done|].
    rewrite replace_names, Hnew. f_equal. lia.
  - assert (k = j) as ->.
    { destruct (decide (k < j)); [|lia]. destruct Hin.
      apply elem_of_app. right. apply list_elem_of_lookup. exists k.
      by apply lookup_take_Some. }
    eexists. rewrite <-app_assoc. split; [done|].
    rewrite fmap_app, Hnew. simpl.
    replace (j `max` S j) with (S j) by lia.
    by rewrite (take_S_r _ _ d).
Qed.

Lemma inner_loop_desc_inv j k s lab (cd : list (cell Mol)) :
  desc_inv df names j s → lab ∈ index df →
  length cd = length names → j ≤ length names → k ≤ length names →
  ∃ s', for_each (take k (zip names cd))
          (λ p, modify (at_set lab p.1 p.2)) s = (s', Ok tt) ∧
        desc_inv df names (j `max` k) s'.
Proof using names_NoDup names_fresh.
  intros Hinv Hlab Hcd Hj. induction k as [|k IH]; intros Hk.
  - exists s. by rewrite Nat.max_0_r.
  - destruct IH as (s1 & Hrun & Hinv1); [lia|].
    destruct (lookup_lt_is_Some_2 names k) as [d Hd]; [lia|].
    destruct (lookup_lt_is_Some_2 cd k) as [v Hv]; [lia|].
    assert (zip names cd !! k = Some (d, v)) as Hz.
    { apply lookup_zip_with_Some. eauto. }
    rewrite (take_S_r _ _ _ Hz), for_each_app, Hrun. simpl.
    eexists. split; [done|].
    replace (j `max` S k) with ((j `max` k) `max` S k) by lia.
    apply at_set_desc_inv; [done..|lia].
Qed.

End DescriptorLoops.

Section Descriptors.

Context {Mol : Type}.
Variable _descList : list (string * (Mol → cell Mol)).
Variable CalcDescriptors : list string → cell Mol → result (list (cell Mol)).

(** The loops leave what the table hands out under a label as it was, in
    every column the table had. *)
Lemma at_get_desc_inv (fr s : DataFrame Mol) (names : list string) j lab col c :
  desc_inv fr names j s → at_get lab col fr = Ok c → at_get lab col s = Ok c.
Proof.
  intros (Hidx & new & Hcols & _). unfold at_get, column.
  destruct (lookup_column col (columns fr)) as [cells|] eqn:Hcol; [|done].
  by rewrite Hcols, (lookup_column_app_l _ _ _ cells), Hidx.
Qed.

Lemma calculate_descriptors_body_run (fr : DataFrame Mol)
    (molecule_column : string) :
  (∀ lab, lab ∈ index fr →
     ∃ c vs, at_get lab molecule_column fr = Ok c ∧
             CalcDescriptors _descList.*1 c = Ok vs ∧
             length vs = length _descList) →
  NoDup _descList.*1 →
  (∀ d, d ∈ _descList.*1 → d ∉ column_names fr) →
  ∀ labels s j,
    (∀ lab, lab ∈ labels → lab ∈ index fr) →
    desc_inv fr _descList.*1 j s → j ≤ length _descList →
    ∃ s',
      for_each labels (λ i,
        do fr_i <- get;
        do mol <- lift (at_get i molecule_column fr_i);
        do cd <- lift (CalcDescriptors _descList.*1 mol);
        for_each (zip _descList.*1 cd) (λ p, modify (at_set i p.1 p.2))) s
      = (s', Ok tt) ∧
      desc_inv fr _descList.*1
        (if labels is [] then j else length _descList) s'.
Proof.
  intros Hvalid Hnames Hfresh labels.
  induction labels as [|lab labels IH]; intros s j Hsub Hinv Hj.
  - by exists s.
  - assert (lab ∈ index fr) as Hlab by (apply Hsub; left).
    destruct (Hvalid lab Hlab) as (c & vs & Hget & Hvs & Hvl).
    apply (at_get_desc_inv fr s _descList.*1 j) in Hget; [|done].
    destruct (inner_loop_desc_inv fr _descList.*1 Hnames Hfresh j
                (length _descList) s lab vs) as (s1 & Hrun1 & Hinv1);
      [done|done|by rewrite length_fmap|
       by rewrite length_fmap|by rewrite length_fmap|].
    rewrite take_ge in Hrun1
      by (rewrite length_zip_with, length_fmap; lia).
    replace (j `max` length _descList) with (length _descList) in Hinv1 by lia.
    destruct (IH s1 (length _descList)) as (s2 & Hrun2 & Hinv2);
      [intros; apply Hsub; by right|done|done|].
    exists s2. split.
    + simpl. unfold bind at 1. unfold bind at 1. unfold get at 1.
      cbv beta iota. unfold bind at 1. unfold lift at 1. rewrite Hget.
      cbv beta iota. unfold bind at 1. unfold lift at 1. rewrite Hvs.
      cbv beta iota. rewrite Hrun1. done.
    + by destruct labels.
Qed.

(** With distinct row labels, a row is accepted by the calculator as soon as
    its molecule is. *)
Lemma distinct_labels_accepted (fr : DataFrame Mol) (molecule_column : string)
    (mols : list (cell Mol)) :
  NoDup (index fr) →
  column fr molecule_column = Some mols →
  length mols = length (index fr) →
  (∀ c, c ∈ mols → ∃ vs, CalcDescriptors _descList.*1 c = Ok vs ∧
                         length vs = length _descList) →
  ∀ lab, lab ∈ index fr →
    ∃ c vs, at_get lab molecule_column fr = Ok c ∧
            CalcDescriptors _descList.*1 c = Ok vs ∧
            length vs = length _descList.
Proof.
  intros Hnd Hmols Hlen Hvalid lab [p Hp]%list_elem_of_lookup.
  destruct (lookup_lt_is_Some_2 mols p) as [c Hc].
  { rewrite Hlen. by eapply lookup_lt_Some. }
  destruct (Hvalid c) as (vs & Hvs & Hvl); [by eapply list_elem_of_lookup_2|].
  exists c, vs. split_and!; [|done..].
  by apply (at_get_unique fr p lab molecule_column mols).
Qed.

(** C6, as the code has it.  For a table with at least one row, on each of
    whose rows the calculator yields one value per descriptor for what the
    table hands out under the row's label (the molecule of the row; with a
    repeated label, the molecules of the rows that share it), and with no
    column that bears the name of a descriptor, [calculate_descriptors]
    completes and appends exactly one new column per descriptor of the
    toolkit's list, in the order of the list; the labels and all columns the
    table had, names and contents, are as before.  The row labels need not
    be distinct. *)
Theorem calculate_descriptors_appends (h : heap Mol) (df : nat)
    (fr : DataFrame Mol) (molecule_column : string) :
  h !! df = Some fr →
  index fr ≠ [] →
  (∀ lab, lab ∈ index fr →
     ∃ c vs, at_get lab molecule_column fr = Ok c ∧
             CalcDescriptors _descList.*1 c = Ok vs ∧
             length vs = length _descList) →
  NoDup _descList.*1 →
  (∀ d, d ∈ _descList.*1 → d ∉ column_names fr) →
  ∃ fr',
    calculate_descriptors _descList CalcDescriptors df molecule_column h
    = (<[df := fr']> h, Ok PyNone) ∧
    index fr' = index fr ∧
    appends_columns fr fr' _descList.*1.
Proof.
  intros Hdf Hrows Hvalid Hnames Hfresh.
  destruct (calculate_descriptors_body_run fr molecule_column
              Hvalid Hnames Hfresh (index fr) fr 0)
    as (fr' & Hrun & Hidx & new & Hcols & Hnew); [done| |lia|].
  { split; [done|]. exists []. by rewrite app_nil_r. }
  exists fr'. split_and!; [|done|].
  - unfold calculate_descriptors, bind.
    by rewrite (in_place_run h df fr fr' _ (Ok tt)).
  - exists new. split; [done|]. rewrite Hnew.
    destruct (index fr); [done|].
    apply take_ge. by rewrite length_fmap.
Qed.

(** C9.  Whenever [calculate_descriptors] returns, it hands back [None] and
    never a reference, and whenever [add_mol_column] returns, it hands back
    the very reference [df] it was given.  Yet [calculate_descriptors]
    changes the table that [df] refers to in the store: on a table it
    completes on, the reference [df] leads to a table with one more column
    per descriptor afterwards, a different table as soon as there is a
    descriptor.  And [add_mol_column] leaves under [df] the table as the
    toolkit's call changed it.  A caller that rebinds its variable to the
    result of [calculate_descriptors] is left with [None]. *)
Theorem calculate_descriptors_returns_none
    (MolFromSmiles : string → option Mol) (h : heap Mol) (df : nat)
    (fr : DataFrame Mol) (molecule_column smiles_col molecule_col : string) :
  (∀ v, (calculate_descriptors _descList CalcDescriptors df molecule_column h).2
        = Ok v → v = PyNone ∧ ∀ l, v ≠ PyRef l) ∧
  (∀ v, (add_mol_column MolFromSmiles df smiles_col molecule_col h).2
        = Ok v → v = PyRef df) ∧
  (h !! df = Some fr →
   index fr ≠ [] →
   (∀ lab, lab ∈ index fr →
      ∃ c vs, at_get lab molecule_column fr = Ok c ∧
              CalcDescriptors _descList.*1 c = Ok vs ∧
              length vs = length _descList) →
   NoDup _descList.*1 →
   (∀ d, d ∈ _descList.*1 → d ∉ column_names fr) →
   ∃ fr',
     calculate_descriptors _descList CalcDescriptors df molecule_column h
     = (<[df := fr']> h, Ok PyNone) ∧
     appends_columns fr fr' _descList.*1 ∧
     (_descList ≠ [] → fr' ≠ fr)) ∧
  (h !! df = Some fr →
   ∀ fr2 r,
     AddMoleculeColumnToFrame MolFromSmiles smiles_col molecule_col fr = (fr2, r) →
     add_mol_column MolFromSmiles df smiles_col molecule_col h
     = (<[df := fr2]> h, result_map (λ _, PyRef df) r)).
Proof.
  split_and!.
  - intros v. unfold calculate_descriptors, bind.
    destruct (in_place df _ h) as [h' [[]|e]]; simpl; [|done].
    intros [= <-]. by split.
  - intros v. unfold add_mol_column, bind.
    destruct (in_place df _ h) as [h' [[]|e]]; simpl; [|done].
    by intros [= <-].
  - intros Hdf Hrows Hvalid Hnames Hfresh.
    destruct (calculate_descriptors_body_run fr molecule_column
                Hvalid Hnames Hfresh (index fr) fr 0)
      as (fr' & Hrun & Hidx & new & Hcols & Hnew); [done| |lia|].
    { split; [done|]. exists []. by rewrite app_nil_r. }
    assert (new.*1 = _descList.*1) as Hall.
    { rewrite Hnew. destruct (index fr); [done|].
      apply take_ge. by rewrite length_fmap. }
    exists fr'. split_and!.
    + unfold calculate_descriptors, bind.
      by rewrite (in_place_run h df fr fr' _ (Ok tt)).
    + by exists new.
    + intros Hne ->. apply (f_equal length) in Hcols.
      rewrite length_app in Hcols.
      apply (f_equal length) in Hall. rewrite !length_fmap in Hall.
      destruct _descList; [done|]. simpl in Hall. lia.
  - intros Hdf fr2 r Hcall. unfold add_mol_column, bind.
    rewrite (in_place_run h df fr fr2 _ r) by done.
    by destruct r as [[]|e].
Qed.

End Descriptors.

Lemma calculate_descriptors_appends_witness :
  (∃ fr',
     calculate_descriptors toy_descList toy_calc 1 "mol" {[ 1 := seven_rows ]}
     = (<[1 := fr']> {[ 1 := seven_rows ]}, Ok PyNone) ∧
     index fr' = index seven_rows ∧
     appends_columns seven_rows fr' toy_descList.*1) ∧
  (∃ fr',
     calculate_descriptors toy_descList lenient_calc 1 "mol"
       {[ 1 := repeated_rows ]}
     = (<[1 := fr']> {[ 1 := repeated_rows ]}, Ok PyNone) ∧
     index fr' = index repeated_rows ∧
     appends_columns repeated_rows fr' toy_descList.*1).
Proof.
  split.
  - apply (calculate_descriptors_appends toy_descList toy_calc
             {[ 1 := seven_rows ]} 1 seven_rows "mol").
    + reflexivity.
    + intros H; discriminate H.
    + intros lab Hlab.
      repeat (apply elem_of_cons in Hlab as [->|Hlab]);
        [..|by apply elem_of_nil in Hlab];
        eexists _, _; split_and!; reflexivity.
    + apply (bool_decide_unpack _). by vm_compute.
    + intros d Hd. apply (bool_decide_unpack _).
      apply elem_of_cons in Hd as [->|Hd]; [by vm_compute|].
      apply list_elem_of_singleton in Hd as ->. by vm_compute.
  - apply (calculate_descriptors_appends toy_descList lenient_calc
             {[ 1 := repeated_rows ]} 1 repeated_rows "mol").
    + reflexivity.
    + intros H; discriminate H.
    + intros lab Hlab.
      repeat (apply elem_of_cons in Hlab as [->|Hlab]);
        [..|by apply elem_of_nil in Hlab];
        eexists _, _; split_and!; reflexivity.
    + apply (bool_decide_unpack _). by vm_compute.
    + intros d Hd. apply (bool_decide_unpack _).
      apply elem_of_cons in Hd as [->|Hd]; [by vm_compute|].
      apply list_elem_of_singleton in Hd as ->. by vm_compute.
Defined.

Lemma calculate_descriptors_returns_none_witness :
  (∃ fr',
     calculate_descriptors toy_descList toy_calc 1 "mol" {[ 1 := seven_rows ]}
     = (<[1 := fr']> {[ 1 := seven_rows ]}, Ok PyNone) ∧
     appends_columns seven_rows fr' toy_descList.*1 ∧
     fr' ≠ seven_rows) ∧
  add_mol_column toy_parse 1 "smiles" "parsed" {[ 1 := unparsed_rows ]}
  = (<[1 := set_column "parsed" [Obj (bits 10 [0; 1; 2]); NoneCell]
             unparsed_rows]> {[ 1 := unparsed_rows ]},
     Ok (PyRef 1)).
Proof.
  split.
  - destruct (calculate_descriptors_returns_none toy_descList toy_calc toy_parse
                {[ 1 := seven_rows ]} 1 seven_rows "mol" "smiles" "parsed")
      as (_ & _ & Hcd & _).
    destruct Hcd as (fr' & Hrun & Happ & Hne).
    + reflexivity.
    + intros H; discriminate H.
    + intros lab Hlab.
      repeat (apply elem_of_cons in Hlab as [->|Hlab]);
        [..|by apply elem_of_nil in Hlab];
        eexists _, _; split_and!; reflexivity.
    + apply (bool_decide_unpack _). by vm_compute.
    + intros d Hd. apply (bool_decide_unpack _).
      apply elem_of_cons in Hd as [->|Hd]; [by vm_compute|].
      apply list_elem_of_singleton in Hd as ->. by vm_compute.
    + exists fr'. split_and!; [done..|]. apply Hne. intros H; discriminate H.
  - destruct (calculate_descriptors_returns_none toy_descList toy_calc toy_parse
                {[ 1 := unparsed_rows ]} 1 unparsed_rows "mol" "smiles" "parsed")
      as (_ & _ & _ & Ham).
    apply (Ham eq_refl
             (set_column "parsed" [Obj (bits 10 [0; 1; 2]); NoneCell]
                unparsed_rows) (Ok tt)).
    reflexivity.
Defined.

(** C6, as the spec has it, fails twice: a table without rows gets no column
    at all, and a table that already has a column called like a descriptor
    gets that column overwritten instead of a new one. *)
Lemma calculate_descriptors_counterexample :
  (∃ fr', calculate_descriptors toy_descList toy_calc 1 "mol" {[ 1 := no_rows ]}
          = (<[1 := fr']> {[ 1 := no_rows ]}, Ok PyNone) ∧
          ¬ appends_columns no_rows fr' toy_descList.*1) ∧
  (∃ fr', calculate_descriptors toy_descList toy_calc 1 "mol" {[ 1 := weighed_rows ]}
          = (<[1 := fr']> {[ 1 := weighed_rows ]}, Ok PyNone) ∧
          ¬ appends_columns weighed_rows fr' toy_descList.*1 ∧
          column fr' "MolWt" ≠ column weighed_rows "MolWt").
Proof.
  split.
  - exists no_rows. split; [by vm_compute|].
    intros (new & Hcols & Hnew). simpl in Hcols.
    destruct new; [done|]. discriminate Hcols.
  - exists {| index := [70; 31]%Z;
              columns := [("mol", [Obj (bits 10 [0; 1; 2]); Obj (bits 10 [0; 3])]);
                          ("MolWt", [Int 8; Int 7]);
                          ("NumAtoms", [Int 11; Int 10])] |}.
    split; [by vm_compute|]. split; [|intros H; discriminate H].
    intros (new & Hcols & Hnew). simpl in Hcols. discriminate Hcols.
Qed.

(** The store after [calculate_descriptors] holds the changed table under the
    same reference, and the value returned is [None]. *)
Example descriptors_written_in_place :
  calculate_descriptors toy_descList toy_calc 1 "mol" {[ 1 := weighed_rows ]}
  = ({[ 1 := {| index := [70; 31]%Z;
                columns := [("mol", [Obj (bits 10 [0; 1; 2]); Obj (bits 10 [0; 3])]);
                            ("MolWt", [Int 8; Int 7]);
                            ("NumAtoms", [Int 11; Int 10])] |} ]},
     Ok PyNone).
Proof. by vm_compute. Qed.
(* ================================================================== *)
(** * Structure rendering *)

Section RenderingFacts.

Context {Mol Atom Image Bytes FS : Type}.
Variable GetAtomWithIdx : Mol → nat → result Atom.
Variable GetExplicitValence : Atom → result Z.
Variable UpdatePropertyCache : Mol → bool → result Mol.
Variable PrepareMolForDrawing : Mol → bool → result Mol.
Variable MolDraw2DSVG : Z → Z → Mol → result string.
Variable MolToImage : Mol → Z * Z → result Image.
Variable image_bytes : Image → result Bytes.
Variable image_save : Image → string → string → FS → FS * result unit.
Variable write_text : string → string → FS → FS * result unit.
Variable makedirs : string → FS → FS * result unit.
Variable b64encode : Bytes → string.
Variable encode_utf8 : string → Bytes.

#[local] Abbreviation to_svg :=
  (mol_to_svg (FS := FS) GetAtomWithIdx GetExplicitValence UpdatePropertyCache
     PrepareMolForDrawing MolDraw2DSVG).
#[local] Abbreviation to_html :=
  (mol_to_html GetAtomWithIdx GetExplicitValence UpdatePropertyCache
     PrepareMolForDrawing MolDraw2DSVG MolToImage image_bytes image_save
     write_text makedirs b64encode encode_utf8).
#[local] Abbreviation probe_raises := (probe_raises GetAtomWithIdx GetExplicitValence).
#[local] Abbreviation cache_ready :=
  (cache_ready GetAtomWithIdx GetExplicitValence UpdatePropertyCache).
#[local] Abbreviation prepared := (prepared PrepareMolForDrawing).

Ltac run_svg :=
  unfold mol_to_svg, try_except, bind, get, lift, ret, modify, raise,
    set_mol; simpl.

(** C8.  [mol_to_svg] handles two failures of the toolkit and no other.  A
    runtime error of the valence read on the first atom makes it refresh the
    property cache and go on with the refreshed molecule; a value error of
    the preparation with exact bond orders makes it prepare the molecule
    without forcing them.  Every other failure reaches the caller: another
    exception of the valence read, a failure of the refresh, another
    exception of the exact preparation, a failure of the fallback
    preparation, and a failure of the drawer. *)
Theorem mol_to_svg_handlers (size : Z * Z) (w : world Mol FS) :
  (∀ e, probe_raises (w_mol w) e → e ≠ RuntimeError →
        to_svg size w = (w, Raise e)) ∧
  (∀ e, probe_raises (w_mol w) RuntimeError →
        UpdatePropertyCache (w_mol w) false = Raise e →
        to_svg size w = (w, Raise e)) ∧
  (∀ m' e, cache_ready (w_mol w) m' →
        PrepareMolForDrawing m' true = Raise e → e ≠ ValueError →
        to_svg size w = (set_mol m' w, Raise e)) ∧
  (∀ m' e, cache_ready (w_mol w) m' →
        PrepareMolForDrawing m' true = Raise ValueError →
        PrepareMolForDrawing m' false = Raise e →
        to_svg size w = (set_mol m' w, Raise e)) ∧
  (∀ m' mc, cache_ready (w_mol w) m' → prepared m' mc →
        to_svg size w
        = (set_mol m' w,
           result_map strip_namespace (MolDraw2DSVG size.1 size.2 mc))).
Proof.
  destruct size as [wd ht], w as [m log fs]. simpl. split_and!.
  - intros e [He|(a & Ha & He)] Hne; run_svg; rewrite ?Ha, He; simpl;
      by rewrite decide_False.
  - intros e [He|(a & Ha & He)] Hup; run_svg; rewrite ?Ha, He; simpl;
      by rewrite Hup.
  - intros m' e [(a & v & Ha & Hv & ->)|[[He|(a & Ha & He)] Hup]] Hp Hne;
      run_svg; rewrite ?Ha, ?Hv, ?He; simpl; rewrite ?Hup; simpl;
      rewrite Hp; simpl; by rewrite decide_False.
  - intros m' e [(a & v & Ha & Hv & ->)|[[He|(a & Ha & He)] Hup]] Hp Hf;
      run_svg; rewrite ?Ha, ?Hv, ?He; simpl; rewrite ?Hup; simpl;
      rewrite Hp; simpl; by rewrite Hf.
  - intros m' mc [(a & v & Ha & Hv & ->)|[[He|(a & Ha & He)] Hup]]
      [Hp|[Hp Hf]];
      run_svg; rewrite ?Ha, ?Hv, ?He; simpl; rewrite ?Hup; simpl;
      rewrite Hp; simpl; rewrite ?Hf; by destruct (MolDraw2DSVG wd ht mc).
Qed.


Lemma bind_not_none {S A B} (m : Py S A) (k : A → Py S (option B)) (s : S) :
  (∀ a s', (k a s').2 ≠ Ok None) → (bind m k s).2 ≠ Ok None.
Proof.
  intros Hk. unfold bind. destruct (m s) as [s' [a|e]]; [apply Hk|done].
Qed.

(** [mol_to_svg] touches neither the log nor the files, and what it returns
    and what it leaves of the molecule depend on the molecule only. *)
Lemma mol_to_svg_frame (size : Z * Z) (w w' : world Mol FS) :
  w_mol w = w_mol w' →
  (to_svg size w).2 = (to_svg size w').2 ∧
  w_mol (to_svg size w).1 = w_mol (to_svg size w').1 ∧
  w_fs (to_svg size w).1 = w_fs w ∧
  w_log (to_svg size w).1 = w_log w.
Proof.
  destruct size as [wd ht], w as [m log fs], w' as [m' log' fs'].
  simpl. intros <-. run_svg.
  destruct (GetAtomWithIdx m 0) as [a|e]; simpl;
    [destruct (GetExplicitValence a) as [v|e]; simpl|];
    try (destruct (decide (e = RuntimeError)); simpl;
         [destruct (UpdatePropertyCache m false) as [m1|e1]; simpl|]);
    try done;
    repeat match goal with
    | |- context [PrepareMolForDrawing ?x ?b] =>
        destruct (PrepareMolForDrawing x b) as [?|[]]; simpl
    | |- context [MolDraw2DSVG ?a ?b ?c] =>
        destruct (MolDraw2DSVG a b c); simpl
    end; done.
Qed.

(** C7.  When the lowercase form of [type] is neither [png] nor [svg],
    [mol_to_html] logs one warning, returns [None] without raising and does
    nothing else; when the lowercase form is [png] or [svg], whatever the
    case of the letters given, the type is recognized: the call does not end
    in [None]. *)
Theorem mol_to_html_type (name type directory : string) (embed : bool)
    (width height : Z) (w : world Mol FS) :
  (lower type ≠ "png" → lower type ≠ "svg" →
   to_html name type directory embed width height w
   = (add_log "WARNING"
        "Image type not recognized. Choose between png and svg." w,
      Ok None)) ∧
  (lower type = "png" ∨ lower type = "svg" →
   (to_html name type directory embed width height w).2 ≠ Ok None).
Proof.
  split.
  - intros Hp Hs. unfold mol_to_html.
    rewrite bool_decide_eq_true_2; [done|].
    rewrite !not_elem_of_cons. split_and!; [done..|apply not_elem_of_nil].
  - intros Hty. unfold mol_to_html.
    rewrite bool_decide_eq_false_2
      by (intros Hn; apply Hn; destruct Hty as [-> | ->];
          [left|right; left]).
    destruct embed; repeat (apply bind_not_none; intros); done.
Qed.

(** The data URL of the embedded image: it leaves the files alone and
    depends on the molecule only. *)
Lemma data_url_frame (type : string) (width height : Z) (w w' : world Mol FS) :
  w_mol w = w_mol w' →
  let data_url : Py (world Mol FS) string :=
    (if bool_decide (lower type = "png") then
       do img <- mol_to_pil MolToImage (width, height);
       do imgByteArr <- lift (image_bytes img);
       ret ("data:image/png;base64," +:+ b64encode imgByteArr)
     else if bool_decide (lower type = "svg") then
       do svg <- to_svg (width, height);
       let img := encode_utf8 svg in
       ret ("data:image/svg+xml;base64," +:+ b64encode img)
     else raise (OtherError "UnboundLocalError")) in
  (data_url w).2 = (data_url w').2 ∧ w_fs (data_url w).1 = w_fs w.
Proof.
  intros Hmol. cbv zeta. case_bool_decide; [|case_bool_decide].
  - unfold mol_to_pil, bind, get, lift, ret; simpl. rewrite Hmol.
    destruct (MolToImage (w_mol w') (width, height)) as [img|e]; simpl; [|done].
    by destruct (image_bytes img).
  - destruct (mol_to_svg_frame (width, height) w w' Hmol) as (Hres & _ & Hfs & _).
    unfold bind, ret.
    set (o := to_svg (width, height) w) in *.
    set (o' := to_svg (width, height) w') in *.
    clearbody o o'. destruct o as [w1 [svg|e]], o' as [w1' [svg'|e']];
      simpl in *; try done; by simplify_eq.
  - done.
Qed.

(** C10.  With [embed=True], [mol_to_html] leaves the files as they are, and
    its outcome, the tag included, is the same for any two names and
    directories and for any two states of the log and the files: it depends
    on the molecule, the type, the width and the height only. *)
Theorem mol_to_html_embed (name name' type directory directory' : string)
    (width height : Z) (w w' : world Mol FS) :
  w_fs (to_html name type directory true width height w).1 = w_fs w ∧
  (w_mol w = w_mol w' →
   (to_html name type directory true width height w).2
   = (to_html name' type directory' true width height w').2).
Proof.
  unfold mol_to_html. case_bool_decide; [by split|].
  set (msg := "Warning: embed=True will result in large data structures if you have a lot of molecules.").
  pose proof (data_url_frame type width height (add_log "INFO" msg w)) as Hframe.
  cbv zeta in Hframe.
  set (data_url := if bool_decide (lower type = "png") then _ else _) in *.
  unfold log_info, bind, modify, ret. split.
  - destruct (Hframe (add_log "INFO" msg w) eq_refl) as [_ Hfs].
    clearbody data_url.
    destruct (data_url (add_log "INFO" msg w)) as [w1 [url|e]]; done.
  - intros Hmol. destruct (Hframe (add_log "INFO" msg w') Hmol) as [Hres _].
    clearbody data_url.
    destruct (data_url (add_log "INFO" msg w)) as [w1 [url|e]],
      (data_url (add_log "INFO" msg w')) as [w1' [url'|e']];
      simpl in *; by simplify_eq.
Qed.

End RenderingFacts.

Lemma mol_to_svg_handlers_witness :
  toy_mol_to_svg (400, 200)%Z (toy_world {| stale := true; kekulizable := false |})
  = (set_mol {| stale := false; kekulizable := false |}
       (toy_world {| stale := true; kekulizable := false |}),
     Ok "<svg xmlns='http://www.w3.org/2000/svg'></svg>").
Proof.
  apply (proj2 (proj2 (proj2 (proj2
           (mol_to_svg_handlers toy_atom toy_valence toy_update toy_prepare
              toy_svg (400, 200)%Z
              (toy_world {| stale := true; kekulizable := false |})))))
           {| stale := false; kekulizable := false |}
           {| stale := false; kekulizable := false |}).
  - right. split; [right; eexists; split; reflexivity|reflexivity].
  - right. split; reflexivity.
Defined.

Lemma mol_to_html_type_witness :
  toy_mol_to_html "a.bmp" "bmp" "rdkit_svg" false 400 200
    (toy_world {| stale := false; kekulizable := true |})
  = (add_log "WARNING" "Image type not recognized. Choose between png and svg."
       (toy_world {| stale := false; kekulizable := true |}),
     Ok None) ∧
  (toy_mol_to_html "a.png" "PnG" "rdkit_svg" true 400 200
     (toy_world {| stale := false; kekulizable := true |})).2 ≠ Ok None.
Proof.
  split.
  - apply (proj1 (mol_to_html_type toy_atom toy_valence toy_update toy_prepare
                    toy_svg toy_image toy_bytes toy_save toy_write toy_makedirs
                    (λ b : string, b) (λ s : string, s)
                    "a.bmp" "bmp" "rdkit_svg" false 400 200
                    (toy_world {| stale := false; kekulizable := true |})));
      vm_compute; intros H; discriminate H.
  - apply (proj2 (mol_to_html_type toy_atom toy_valence toy_update toy_prepare
                    toy_svg toy_image toy_bytes toy_save toy_write toy_makedirs
                    (λ b : string, b) (λ s : string, s)
                    "a.png" "PnG" "rdkit_svg" true 400 200
                    (toy_world {| stale := false; kekulizable := true |}))).
    left. reflexivity.
Defined.

(** An embedded image on the toy toolkit: no file is written. *)
Example embedded_svg_on_toy :
  toy_mol_to_html "ignored" "SVG" "nowhere" true 400 200
    (toy_world {| stale := true; kekulizable := false |})
  = ({| w_mol := {| stale := false; kekulizable := false |};
        w_log := [("INFO", "Warning: embed=True will result in large data structures if you have a lot of molecules.")];
        w_fs := [] |},
     Ok (Some "<img src='data:image/svg+xml;base64,<svg xmlns='http://www.w3.org/2000/svg'></svg>' style='width:400px;'>")).
Proof. by vm_compute. Qed.

Lemma mol_to_html_embed_witness :
  (toy_mol_to_html "a.svg" "svg" "rdkit_svg" true 400 200
     (toy_world {| stale := true; kekulizable := false |})).2
  = (toy_mol_to_html "b.svg" "svg" "elsewhere" true 400 200
       {| w_mol := {| stale := true; kekulizable := false |};
          w_log := [("INFO", "earlier")];
          w_fs := [("rdkit_svg/old.svg", "<svg/>")] |}).2.
Proof.
  apply (proj2 (mol_to_html_embed toy_atom toy_valence toy_update toy_prepare
                  toy_svg toy_image toy_bytes toy_save toy_write toy_makedirs
                  (λ b : string, b) (λ s : string, s)
                  "a.svg" "b.svg" "svg" "rdkit_svg" "elsewhere" 400 200
                  (toy_world {| stale := true; kekulizable := false |})
                  {| w_mol := {| stale := true; kekulizable := false |};
                     w_log := [("INFO", "earlier")];
                     w_fs := [("rdkit_svg/old.svg", "<svg/>")] |})).
  reflexivity.
Defined.

(* ================================================================== *)
(** * Further properties of the clustering *)

Lemma tri_double i : 2 * tri i = i * (i - 1).
Proof. induction i as [|i IH]; simpl; [done|]. destruct i; simpl in *; lia. Qed.

Lemma strongly_sorted_lookup {A} (R : relation A) (l : list A) i j x y :
  StronglySorted R l → i < j → l !! i = Some x → l !! j = Some y → R x y.
Proof.
  intros Hs. revert i j. induction Hs as [|a l Hs IH Ha]; intros i j Hij Hi Hj;
    [done|].
  destruct j as [|j]; [lia|]. destruct i as [|i]; simpl in *.
  - injection Hi as ->. rewrite Forall_forall in Ha.
    apply Ha. by eapply list_elem_of_lookup_2.
  - apply (IH i j); [lia|done..].
Qed.

Lemma concat_length_nonempty {A} (ls : list (list A)) :
  Forall (λ l, l ≠ []) ls → length ls ≤ length (concat ls).
Proof.
  induction 1 as [|l ls Hl _ IH]; simpl; [done|].
  rewrite length_app. destruct l; [done|]. simpl. lia.
Qed.

(** Later centroids are unassigned points that the earlier centroids did not
    reach. *)
Lemma sphere_exclusion_apart close points order assigned :
  (∀ x, x ∈ order → x ∈ points) →
  StronglySorted (λ c1 c2, close (centroid c1) (centroid c2) = false)
    (sphere_exclusion close points order assigned) ∧
  Forall (λ c, (centroid c ∉ assigned) ∧ centroid c ∈ points)
    (sphere_exclusion close points order assigned).
Proof.
  revert assigned. induction order as [|p rest IH]; intros assigned Hsub;
    simpl; [split; constructor|].
  assert (∀ x, x ∈ rest → x ∈ points) as Hrest.
  { intros x Hx. apply Hsub. by right. }
  case_bool_decide as Hp; [by apply IH|].
  set (members := p :: filter _ points).
  destruct (IH (members ++ assigned) Hrest) as [Hs Hf]. split.
  - constructor; [done|]. eapply Forall_impl; [exact Hf|].
    intros c [Hn Hin]. simpl.
    destruct (close p (centroid c)) eqn:Hc; [exfalso|done].
    apply Hn. apply elem_of_app. left. unfold members. right.
    apply list_elem_of_filter. split; [|done]. split; [by rewrite Hc|].
    intros Hin'. apply Hn. apply elem_of_cons in Hin' as [->|?].
    + apply elem_of_app. left. left.
    + apply elem_of_app. by right.
  - constructor; [split; [done|apply Hsub; left]|].
    eapply Forall_impl; [exact Hf|]. intros c [Hn Hin]. split; [|done].
    intros ?. apply Hn. apply elem_of_app. by right.
Qed.

Lemma sphere_exclusion_all_assigned close points order assigned :
  (∀ x, x ∈ order → x ∈ assigned) →
  sphere_exclusion close points order assigned = [].
Proof.
  induction order as [|p rest IH]; intros Hall; simpl; [done|].
  rewrite bool_decide_eq_true_2 by (apply Hall; left).
  apply IH. intros x Hx. apply Hall. by right.
Qed.

Section ClusteringExtras.

Context {ExplicitBitVect : Type}.
Variable TanimotoSimilarity : ExplicitBitVect → ExplicitBitVect → Q.
Variable fps : list ExplicitBitVect.
Variable cutoff : Q.

(** The distance list holds one entry per unordered pair of fingerprints,
    [n (n - 1) / 2] in all, and the distance of the pair [j < i] sits at
    position [tri i + j]: the layout the clustering routine reads. *)
Theorem distance_list_layout :
  length (distance_list TanimotoSimilarity fps) = tri (length fps) ∧
  2 * tri (length fps) = length fps * (length fps - 1) ∧
  (∀ i j a b, j < i → fps !! i = Some a → fps !! j = Some b →
     distance_list TanimotoSimilarity fps !! (tri i + j)
     = Some (1 - TanimotoSimilarity a b)%Q).
Proof.
  split_and!.
  - unfold distance_list. destruct (decide (length fps = 0)) as [Hz|Hz].
    + by rewrite Hz.
    + destruct (distance_rows TanimotoSimilarity fps (length fps - 1)) as [Hlen _];
        [lia|].
      rewrite Hlen. f_equal. lia.
  - apply tri_double.
  - intros i j a b Hj Ha Hb. by apply distance_list_lookup.
Qed.

(** The statements below are about the clusters themselves, and so about
    the toolkit's routine as it is modelled in [Butina]. *)

(** No cluster is empty, there are at most as many clusters as fingerprints,
    and there is no cluster at all exactly when there is no fingerprint. *)
Theorem cluster_fingerprints_count :
  ∃ cs, cluster_fingerprints TanimotoSimilarity fps cutoff = Some cs ∧
        Forall (λ c, c ≠ []) cs ∧
        length cs ≤ length fps ∧
        (cs = [] ↔ fps = []).
Proof.
  eexists. split; [apply cluster_fingerprints_reference|].
  set (close := within_cutoff TanimotoSimilarity fps cutoff).
  set (cs := sphere_exclusion _ _ _ _).
  assert (concat cs ≡ₚ seq 0 (length fps)) as Hperm.
  { apply sphere_exclusion_partition, processing_order_perm. }
  assert (Forall (λ c, c ≠ []) cs) as Hne.
  { eapply Forall_impl; [apply sphere_exclusion_centroids|].
    intros c (rest & Hc & _). by rewrite Hc. }
  pose proof (concat_length_nonempty cs Hne) as Hlen.
  rewrite Hperm, length_seq in Hlen.
  split_and!; [done..|]. split.
  - intros Hcs. rewrite Hcs in Hperm. simpl in Hperm.
    apply Permutation_length in Hperm. rewrite length_seq in Hperm.
    by apply nil_length_inv.
  - intros Hfps. apply nil_length_inv.
    apply (f_equal length) in Hfps. simpl in Hfps. lia.
Qed.

(** The centroids of two different clusters are never within the cutoff of
    each other. *)
Theorem cluster_fingerprints_centroids_apart :
  ∃ cs, cluster_fingerprints TanimotoSimilarity fps cutoff = Some cs ∧
        ∀ i j c1 c2, i ≠ j → cs !! i = Some c1 → cs !! j = Some c2 →
          within_cutoff TanimotoSimilarity fps cutoff (centroid c1) (centroid c2)
          = false.
Proof.
  eexists. split; [apply cluster_fingerprints_reference|].
  set (close := within_cutoff TanimotoSimilarity fps cutoff).
  destruct (sphere_exclusion_apart close (seq 0 (length fps))
              (processing_order close (length fps)) []) as [Hs _].
  { intros x. by rewrite processing_order_perm. }
  intros i j c1 c2 Hij H1 H2.
  destruct (decide (i < j)).
  - by apply (strongly_sorted_lookup _ _ i j c1 c2 Hs).
  - unfold close. rewrite within_cutoff_sym.
    apply (strongly_sorted_lookup _ _ j i c2 c1 Hs); [lia|done..].
Qed.

(** When every two fingerprints are within the cutoff of each other, a
    non-empty input comes back as one cluster that holds every position. *)
Theorem cluster_fingerprints_single_cluster :
  fps ≠ [] →
  (∀ a b, a ∈ fps → b ∈ fps → (1 - TanimotoSimilarity a b <= cutoff)%Q) →
  ∃ c, cluster_fingerprints TanimotoSimilarity fps cutoff = Some [c] ∧
       c ≡ₚ seq 0 (length fps).
Proof.
  intros Hne Hall.
  set (close := within_cutoff TanimotoSimilarity fps cutoff).
  set (n := length fps).
  assert (∀ p q, p < n → q < n → p ≠ q → close p q = true) as Hclose.
  { intros p q Hp Hq Hpq. unfold close, within_cutoff, pair_distance.
    rewrite bool_decide_eq_true_2 by done. simpl.
    destruct (lookup_lt_is_Some_2 fps (p `max` q)) as [a Ha]; [lia|].
    destruct (lookup_lt_is_Some_2 fps (p `min` q)) as [b Hb]; [lia|].
    rewrite Ha, Hb. apply Qle_bool_iff, Hall; by eapply list_elem_of_lookup_2. }
  pose proof (processing_order_perm close n) as Hperm.
  pose proof (cluster_fingerprints_reference TanimotoSimilarity fps cutoff) as Href.
  pose proof (sphere_exclusion_partition close n _ Hperm) as Hpart.
  fold close n in Href.
  destruct (processing_order close n) as [|p rest] eqn:Horder.
  { apply Permutation_length in Hperm. rewrite length_seq in Hperm.
    destruct Hne. apply nil_length_inv. unfold n in Hperm. simpl in Hperm. lia. }
  set (c := p :: filter (λ q, close p q ∧ q ∉ [p]) (seq 0 n)).
  assert (sphere_exclusion close (seq 0 n) (p :: rest) [] = [c]) as Hse.
  { simpl. fold c. f_equal. rewrite app_nil_r.
    apply sphere_exclusion_all_assigned. intros x Hx.
    assert (NoDup (p :: rest)) as Hnd by (rewrite Hperm; apply NoDup_seq).
    apply NoDup_cons in Hnd as [Hp _].
    assert (x < n ∧ p < n) as [Hxn Hpn].
    { split; [assert (x ∈ p :: rest) as Hin by by right|
               assert (p ∈ p :: rest) as Hin by left];
        rewrite Hperm in Hin; apply elem_of_seq in Hin; lia. }
    unfold c. right.
    apply list_elem_of_filter. split; [|apply elem_of_seq; lia].
    split.
    + rewrite Hclose; [done..|]. intros ->. done.
    + intros [->|Hin]%elem_of_cons; [done|]. by apply elem_of_nil in Hin. }
  rewrite Hse in Href, Hpart. exists c. split; [done|].
  simpl in Hpart. by rewrite app_nil_r in Hpart.
Qed.

End ClusteringExtras.

Lemma distance_list_layout_witness :
  distance_list tanimoto seven_fingerprints !! (tri 4 + 1) = Some (2 # 3)%Q.
Proof.
  apply (proj2 (proj2 (distance_list_layout tanimoto seven_fingerprints))
           4 1 (bits 10 [3; 4]) (bits 10 [0; 3])); [lia|reflexivity..].
Defined.

Lemma cluster_fingerprints_single_cluster_witness :
  ∃ c, cluster_fingerprints tanimoto seven_fingerprints 1 = Some [c] ∧
       c ≡ₚ seq 0 7.
Proof.
  apply (cluster_fingerprints_single_cluster tanimoto seven_fingerprints 1).
  - intros H; discriminate H.
  - intros a b Ha Hb.
    repeat (apply elem_of_cons in Ha as [->|Ha]);
      [..|by apply elem_of_nil in Ha];
      repeat (apply elem_of_cons in Hb as [->|Hb]);
      try (by apply elem_of_nil in Hb);
      vm_compute; intros H; discriminate H.
Defined.

(* ================================================================== *)
(** * Further properties of the table functions *)

(** ** Statements that keep a property *)

Lemma preserves_bind {S A B} (P : S → Prop) (m : Py S A) (k : A → Py S B) :
  preserves P m → (∀ a, preserves P (k a)) → preserves P (bind m k).
Proof.
  intros Hm Hk s Hs. unfold bind. specialize (Hm s Hs).
  destruct (m s) as [s' [a|e]]; [by apply Hk|done].
Qed.

Lemma preserves_get {S B} (P : S → Prop) (k : S → Py S B) :
  (∀ a, P a → preserves P (k a)) → preserves P (bind get k).
Proof. intros Hk s Hs. unfold bind, get. by apply Hk. Qed.

Lemma preserves_lift {S A B} (P : S → Prop) (r : result A) (k : A → Py S B) :
  (∀ a, r = Ok a → preserves P (k a)) → preserves P (bind (lift r) k).
Proof.
  intros Hk s Hs. unfold bind, lift. destruct r as [a|e]; [by apply Hk|done].
Qed.

Lemma preserves_modify {S} (P : S → Prop) (f : S → S) :
  (∀ s, P s → P (f s)) → preserves P (modify f).
Proof. intros Hf s Hs. by apply Hf. Qed.

Lemma preserves_for_each {S A} (P : S → Prop) (l : list A) (body : A → Py S unit) :
  (∀ x, x ∈ l → preserves P (body x)) → preserves P (for_each l body).
Proof.
  induction l as [|x l IH]; intros Hbody; simpl; [by intros s Hs|].
  apply preserves_bind; [apply Hbody; left|].
  intros _. apply IH. intros y Hy. apply Hbody. by right.
Qed.

Lemma in_place_state {Mol A} (h : heap Mol) (df : nat) (fr : DataFrame Mol)
    (body : Py (DataFrame Mol) A) :
  h !! df = Some fr → (in_place df body h).1 = <[df := (body fr).1]> h.
Proof. intros Hdf. unfold in_place. by rewrite Hdf. Qed.

Lemma bind_state_ret {S A B} (m : Py S A) (b : B) (s : S) :
  (bind m (λ _, ret b) s).1 = (m s).1.
Proof. unfold bind, ret. by destruct (m s) as [s' [a|e]]. Qed.

Section TableEffects.

Context {Mol : Type}.
Implicit Types (df s : DataFrame Mol) (cells : list (cell Mol)).

Lemma at_get_inv lab col s c :
  at_get lab col s = Ok c →
  (∃ q cells, index s !! q = Some lab ∧ column s col = Some cells ∧
              cells !! q = Some c) ∨
  (∃ cs, c = Series cs).
Proof.
  unfold at_get. destruct (column s col) as [cells|]; [|done].
  destruct (filter _ _) as [|p [|? ?]] eqn:Hf; [done| |intros [= <-]; eauto].
  intros [= <-]. left.
  assert (p ∈ filter (λ p, p.1 = lab) (zip (index s) cells)) as Hp
    by (rewrite Hf; left).
  apply list_elem_of_filter in Hp as [Hlab Hp].
  apply list_elem_of_lookup in Hp as [q Hq].
  apply lookup_zip_with_Some in Hq as (l & c & -> & Hl & Hc).
  simpl in Hlab. subst l. eauto.
Qed.

Lemma at_get_inv_unique lab col s c :
  NoDup (index s) → at_get lab col s = Ok c →
  ∃ q cells, index s !! q = Some lab ∧ column s col = Some cells ∧
             cells !! q = Some c.
Proof.
  intros Hnd. unfold at_get. destruct (column s col) as [cells|]; [|done].
  destruct (filter _ _) as [|p ps] eqn:Hf; [done|].
  assert (p ∈ filter (λ p, p.1 = lab) (zip (index s) cells)) as Hp
    by (rewrite Hf; left).
  apply list_elem_of_filter in Hp as [Hlab Hp].
  apply list_elem_of_lookup in Hp as [q Hq].
  apply lookup_zip_with_Some in Hq as (l & c0 & -> & Hl & Hc).
  simpl in Hlab. subst l.
  rewrite (filter_label_unique _ _ q lab c0) in Hf by done.
  injection Hf as <-. intros [= <-]. eauto.
Qed.

Lemma at_set_same_outside lab col v s :
  lab ∈ index s → same_outside [col] s (at_set lab col v s).
Proof.
  intros Hlab. unfold at_set. rewrite decide_True by done.
  split; [done|]. intros col' Hcol'.
  apply column_set_column_ne. intros ->. apply Hcol'. left.
Qed.

End TableEffects.

Section UntouchedColumns.

Context {Mol ExplicitBitVect : Type}.
Variable TanimotoSimilarity : ExplicitBitVect → ExplicitBitVect → Q.
Variable GetMorganFingerprintAsBitVect :
  cell Mol → nat → nat → result ExplicitBitVect.
Variable _descList : list (string * (Mol → cell Mol)).
Variable CalcDescriptors : list string → cell Mol → result (list (cell Mol)).

Lemma same_outside_step (names : list string) (fr s s' : DataFrame Mol) col :
  col ∈ names → same_outside names fr s → same_outside [col] s s' →
  same_outside names fr s'.
Proof.
  intros Hcol [Hi Hc] [Hi' Hc']. split; [congruence|].
  intros col' Hn. rewrite Hc', Hc; [done..|].
  intros ->%list_elem_of_singleton. done.
Qed.

(** Whatever the table and however the call ends, [cluster_dataframe] leaves
    the row labels and every column but the cluster column as they were. *)
Theorem cluster_dataframe_untouched (h : heap Mol) (df : nat)
    (fr : DataFrame Mol) (molecule_column cluster_column : string) (cutoff : Q) :
  h !! df = Some fr →
  ∃ fr',
    (cluster_dataframe TanimotoSimilarity GetMorganFingerprintAsBitVect
       df molecule_column cluster_column cutoff h).1 = <[df := fr']> h ∧
    same_outside [cluster_column] fr fr'.
Proof.
  intros Hdf. eexists. split.
  { unfold cluster_dataframe. by rewrite bind_state_ret, (in_place_state h df fr). }
  cut (preserves (same_outside [cluster_column] fr)
         (cluster_dataframe_body TanimotoSimilarity
            GetMorganFingerprintAsBitVect molecule_column cluster_column cutoff)).
  { intros Hpres. by apply Hpres. }
  unfold cluster_dataframe_body.
  apply preserves_get. intros fr0 _.
  apply preserves_bind.
  { apply preserves_modify. intros s Hs.
    apply (same_outside_step _ fr s _ cluster_column); [left|done|].
    split; [done|]. intros col Hcol. apply column_set_column_ne.
    intros ->. apply Hcol. left. }
  intros _. apply preserves_get. intros fr1 [Hidx1 _].
  apply preserves_lift. intros df2 Hreset.
  apply preserves_lift. intros mols _.
  apply preserves_lift. intros fingerprints _.
  apply preserves_lift. intros clusters _.
  apply preserves_for_each. intros i _.
  apply preserves_for_each. intros j _.
  apply preserves_lift. intros c Hget.
  apply at_get_inv in Hget as [(q & cells & _ & Hcells & Hq)|[cs ->]];
    [|by intros s Hs].
  rewrite column_set_column_eq in Hcells. injection Hcells as <-.
  apply list_lookup_fmap_Some in Hq as (lab & -> & Hlab).
  apply preserves_modify. intros s Hs.
  apply (same_outside_step _ fr s _ cluster_column); [left|done|].
  apply at_set_same_outside. destruct Hs as [-> _]. rewrite <-Hidx1.
  by eapply list_elem_of_lookup_2.
Qed.

(** Whatever the table and however the call ends, [calculate_descriptors]
    leaves the row labels and every column that is not named like a
    descriptor as they were. *)
Theorem calculate_descriptors_untouched (h : heap Mol) (df : nat)
    (fr : DataFrame Mol) (molecule_column : string) :
  h !! df = Some fr →
  ∃ fr',
    (calculate_descriptors _descList CalcDescriptors df molecule_column h).1
    = <[df := fr']> h ∧
    same_outside _descList.*1 fr fr'.
Proof.
  intros Hdf. eexists. split.
  { unfold calculate_descriptors. by rewrite bind_state_ret, (in_place_state h df fr). }
  cut (preserves (same_outside _descList.*1 fr)
         (calculate_descriptors_body _descList CalcDescriptors molecule_column)).
  { intros Hpres. by apply Hpres. }
  unfold calculate_descriptors_body.
  apply preserves_get. intros fr0 [Hidx0 _].
  apply preserves_for_each. intros i Hi.
  apply preserves_get. intros fr_i _.
  apply preserves_lift. intros mol _.
  apply preserves_lift. intros cd _.
  apply preserves_for_each. intros [d v] Hp.
  apply preserves_modify. intros s Hs. simpl.
  apply (same_outside_step _ fr s _ d); [|done|].
  - apply list_elem_of_lookup in Hp as [k Hk].
    apply lookup_zip_with_Some in Hk as (d' & v' & [= -> ->] & Hd & _).
    by eapply list_elem_of_lookup_2.
  - apply at_set_same_outside. destruct Hs as [-> _]. by rewrite <-Hidx0.
Qed.

End UntouchedColumns.

Section ClusterDataframeFailure.

Context {Mol ExplicitBitVect : Type}.
Variable TanimotoSimilarity : ExplicitBitVect → ExplicitBitVect → Q.
Variable GetMorganFingerprintAsBitVect :
  cell Mol → nat → nat → result ExplicitBitVect.

(** When the fingerprints cannot all be computed, because the molecule column
    is missing or because a molecule has no fingerprint, [cluster_dataframe]
    raises, and the table is left with a cluster column that holds -1 in
    every row: the column is written before the fingerprints are computed. *)
Theorem cluster_dataframe_failure (h : heap Mol) (df : nat) (fr : DataFrame Mol)
    (molecule_column cluster_column : string) (cutoff : Q) :
  h !! df = Some fr →
  molecule_column ≠ cluster_column → molecule_column ≠ "df_index" →
  molecule_column ≠ "index" →
  "index" ∉ column_names fr → cluster_column ≠ "index" →
  let sentinel :=
    set_column cluster_column (replicate (length (index fr)) (Int (-1))) fr in
  (column fr molecule_column = None →
   cluster_dataframe TanimotoSimilarity GetMorganFingerprintAsBitVect
     df molecule_column cluster_column cutoff h
   = (<[df := sentinel]> h, Raise (OtherError "KeyError"))) ∧
  (∀ mols e, column fr molecule_column = Some mols →
   map_result (λ c, GetMorganFingerprintAsBitVect c 2 1024) mols = Raise e →
   cluster_dataframe TanimotoSimilarity GetMorganFingerprintAsBitVect
     df molecule_column cluster_column cutoff h
   = (<[df := sentinel]> h, Raise e)).
Proof.
  intros Hdf Hmc Hmd Hmi Hidx Hci sentinel.
  set (n := length (index fr)) in *.
  assert ("index" ∉ column_names sentinel) as Hidx1.
  { unfold sentinel, set_column, column_names. simpl. case_decide.
    - intros (c & Hc & Hin)%list_elem_of_fmap.
      apply list_elem_of_fmap in Hin as ([name c'] & -> & Hin).
      simpl in Hc. case_decide; simpl in Hc; [done|].
      apply Hidx. apply list_elem_of_fmap. by exists (name, c').
    - rewrite fmap_app, elem_of_app. intros [?|Hc]; [done|].
      apply list_elem_of_singleton in Hc. done. }
  assert (reset_index sentinel
          = Ok {| index := Z.of_nat <$> seq 0 n;
                  columns := ("index", Int <$> index fr) :: columns sentinel |})
    as Hreset.
  { unfold reset_index.
    rewrite (decide_False (P := "index" ∈ column_names sentinel)) by done.
    by rewrite decide_False by done. }
  assert (∀ df2',
    df2' = {| index := Z.of_nat <$> seq 0 n;
              columns := ("index", Int <$> index fr) :: columns sentinel |} →
    column (set_column "df_index" (Int <$> index sentinel) df2') molecule_column
    = column fr molecule_column) as Hcol.
  { intros df2' ->. rewrite column_set_column_ne by done.
    unfold column at 1. cbn [columns lookup_column].
    rewrite decide_False by done.
    change (column sentinel molecule_column = column fr molecule_column).
    unfold sentinel. by rewrite column_set_column_ne. }
  assert (∀ r,
    cluster_dataframe_body TanimotoSimilarity GetMorganFingerprintAsBitVect
      molecule_column cluster_column cutoff fr = (sentinel, Raise r) →
    cluster_dataframe TanimotoSimilarity GetMorganFingerprintAsBitVect
      df molecule_column cluster_column cutoff h
    = (<[df := sentinel]> h, Raise r)) as Hlift.
  { intros r Hbody. unfold cluster_dataframe, bind.
    by rewrite (in_place_run h df fr sentinel _ (Raise r)). }
  split.
  - intros Hnone. apply Hlift. unfold cluster_dataframe_body.
    unfold bind at 1. unfold get at 1. cbv beta iota.
    unfold bind at 1. unfold modify at 1. cbv beta iota.
    fold n. fold sentinel.
    unfold bind at 1. unfold get at 1. cbv beta iota.
    unfold bind at 1. unfold lift at 1. rewrite Hreset. cbv beta iota.
    unfold bind at 1. unfold lift at 1. unfold values_tolist.
    by rewrite (Hcol _ eq_refl), Hnone.
  - intros mols e Hmols Hfps. apply Hlift. unfold cluster_dataframe_body.
    unfold bind at 1. unfold get at 1. cbv beta iota.
    unfold bind at 1. unfold modify at 1. cbv beta iota.
    fold n. fold sentinel.
    unfold bind at 1. unfold get at 1. cbv beta iota.
    unfold bind at 1. unfold lift at 1. rewrite Hreset. cbv beta iota.
    unfold bind at 1. unfold lift at 1. unfold values_tolist.
    rewrite (Hcol _ eq_refl), Hmols. cbv beta iota.
    unfold bind at 1. unfold lift at 1. rewrite map_result_fmap.
    change (map_result _ mols)
      with (map_result (λ c, GetMorganFingerprintAsBitVect c 2 1024) mols).
    by rewrite Hfps.
Qed.

End ClusterDataframeFailure.

Section ClusterNumbers.

Context {Mol ExplicitBitVect : Type}.
Variable TanimotoSimilarity : ExplicitBitVect → ExplicitBitVect → Q.
Variable GetMorganFingerprintAsBitVect :
  cell Mol → nat → nat → result ExplicitBitVect.

(** After a completed [cluster_dataframe] the numbers found in the cluster
    column are exactly [0 .. k-1], for [k] the number of clusters: every
    cluster number is the label of some row and no other number occurs.
    That no cluster is empty and no row is left out is the toolkit's routine
    as it is modelled in [Butina]. *)
Theorem cluster_dataframe_numbers (h : heap Mol) (df : nat) (fr : DataFrame Mol)
    (molecule_column cluster_column : string) (cutoff : Q)
    (mols : list (cell Mol)) (fps : list ExplicitBitVect) :
  h !! df = Some fr →
  NoDup (index fr) →
  column fr molecule_column = Some mols →
  length mols = length (index fr) →
  map_result (λ c, GetMorganFingerprintAsBitVect c 2 1024) mols = Ok fps →
  molecule_column ≠ cluster_column → molecule_column ≠ "df_index" →
  ¬ ("index" ∈ cluster_column :: column_names fr ∧
     "level_0" ∈ cluster_column :: column_names fr) →
  ∃ clusters fr',
    cluster_fingerprints TanimotoSimilarity fps cutoff = Some clusters ∧
    cluster_dataframe TanimotoSimilarity GetMorganFingerprintAsBitVect
      df molecule_column cluster_column cutoff h
    = (<[df := fr']> h, Ok PyNone) ∧
    ∀ z, (∃ lab, lab ∈ index fr ∧ at_get lab cluster_column fr' = Ok (Int z))
         ↔ (0 ≤ z < Z.of_nat (length clusters))%Z.
Proof.
  intros Hdf Hnd Hmols Hlen Hfps Hmc Hmd Hins.
  destruct (cluster_dataframe_body_run TanimotoSimilarity
              GetMorganFingerprintAsBitVect fr molecule_column cluster_column
              cutoff mols fps)
    as (clusters & fr' & Hcs & [Hperm Hpart] & Hrun & Hi' & Hc'); [done..|].
  assert (∀ p lab, index fr !! p = Some lab →
            ∃ i c, clusters !! i = Some c ∧ p ∈ c ∧
                   at_get lab cluster_column fr' = Ok (Int (Z.of_nat i))) as Hrows.
  { intros p lab Hp. pose proof (lookup_lt_Some _ _ _ Hp) as Hpn.
    destruct (Hpart p Hpn) as (i & c & Hi & Hpc & _).
    exists i, c. split_and!; [done..|].
    eapply (at_get_unique fr' p lab cluster_column);
      [by rewrite Hi'|by rewrite Hi'|done|].
    apply write_labels_hit.
    - rewrite label_writes_positions, Hperm. apply NoDup_seq.
    - apply label_writes_elem. eauto.
    - by rewrite length_replicate. }
  assert (Forall (λ c, c ≠ []) clusters) as Hne.
  { pose proof (cluster_fingerprints_reference TanimotoSimilarity fps cutoff) as Href.
    rewrite Hcs in Href. injection Href as ->.
    eapply Forall_impl; [apply sphere_exclusion_centroids|].
    intros c (rest & Hc & _). by rewrite Hc. }
  exists clusters, fr'. split_and!; [done| |].
  - unfold cluster_dataframe, bind.
    by rewrite (in_place_run h df fr fr' _ (Ok tt)).
  - intros z. split.
    + intros (lab & Hlab & Hget).
      apply list_elem_of_lookup in Hlab as [p Hp].
      destruct (Hrows p lab Hp) as (i & c & Hi & _ & Hget').
      rewrite Hget' in Hget. injection Hget as <-.
      apply lookup_lt_Some in Hi. lia.
    + intros Hz.
      destruct (lookup_lt_is_Some_2 clusters (Z.to_nat z)) as [c Hc]; [lia|].
      rewrite Forall_forall in Hne.
      destruct c as [|p c]; [by destruct (Hne [] (list_elem_of_lookup_2 _ _ _ Hc))|].
      assert (p ∈ concat clusters) as Hp.
      { apply concat_elem_of. exists (Z.to_nat z), (p :: c). split; [done|left]. }
      rewrite Hperm in Hp. apply elem_of_seq in Hp.
      destruct (lookup_lt_is_Some_2 (index fr) p) as [lab Hlab]; [lia|].
      exists lab. split; [by eapply list_elem_of_lookup_2|].
      destruct (Hrows p lab Hlab) as (i & c' & Hi & Hpc & ->).
      destruct (Hpart p) as (k & ck & _ & _ & Huniq); [lia|].
      rewrite (Huniq i c' Hi Hpc).
      rewrite <-(Huniq (Z.to_nat z) (p :: c) Hc); [|left].
      do 2 f_equal. lia.
Qed.

End ClusterNumbers.

Lemma cluster_dataframe_numbers_witness :
  ∃ clusters fr',
    cluster_fingerprints tanimoto seven_fingerprints (7 # 8) = Some clusters ∧
    cluster_dataframe tanimoto toy_morgan 1 "mol" "cluster" (7 # 8)
      {[ 1 := seven_rows ]}
    = (<[1 := fr']> {[ 1 := seven_rows ]}, Ok PyNone) ∧
    ∀ z, (∃ lab, lab ∈ index seven_rows ∧ at_get lab "cluster" fr' = Ok (Int z))
         ↔ (0 ≤ z < Z.of_nat (length clusters))%Z.
Proof.
  apply (cluster_dataframe_numbers tanimoto toy_morgan {[ 1 := seven_rows ]} 1
           seven_rows "mol" "cluster" (7 # 8)
           (Obj <$> seven_fingerprints) seven_fingerprints).
  - reflexivity.
  - apply (bool_decide_unpack _). by vm_compute.
  - reflexivity.
  - reflexivity.
  - reflexivity.
  - intros H; discriminate H.
  - intros H; discriminate H.
  - apply (bool_decide_unpack _). by vm_compute.
Defined.

Lemma cluster_dataframe_untouched_witness :
  ∃ fr',
    (cluster_dataframe tanimoto toy_morgan 1 "mol" "cluster" (7 # 8)
       {[ 1 := seven_rows ]}).1 = <[1 := fr']> {[ 1 := seven_rows ]} ∧
    same_outside ["cluster"] seven_rows fr'.
Proof.
  apply (cluster_dataframe_untouched tanimoto toy_morgan {[ 1 := seven_rows ]} 1
           seven_rows "mol" "cluster" (7 # 8)).
  reflexivity.
Defined.

Lemma calculate_descriptors_untouched_witness :
  ∃ fr',
    (calculate_descriptors toy_descList toy_calc 1 "mol"
       {[ 1 := weighed_rows ]}).1 = <[1 := fr']> {[ 1 := weighed_rows ]} ∧
    same_outside toy_descList.*1 weighed_rows fr'.
Proof.
  apply (calculate_descriptors_untouched toy_descList toy_calc
           {[ 1 := weighed_rows ]} 1 weighed_rows "mol").
  reflexivity.
Defined.

Lemma cluster_dataframe_failure_witness :
  cluster_dataframe tanimoto toy_morgan 1 "mol" "cluster" (7 # 8)
    {[ 1 := unparsed_rows ]}
  = (<[1 := set_column "cluster" [Int (-1); Int (-1)] unparsed_rows]>
       {[ 1 := unparsed_rows ]},
     Raise (OtherError "ArgumentError")).
Proof.
  destruct (cluster_dataframe_failure tanimoto toy_morgan
              {[ 1 := unparsed_rows ]} 1 unparsed_rows "mol" "cluster" (7 # 8))
    as [_ Hfail].
  - reflexivity.
  - intros H; discriminate H.
  - intros H; discriminate H.
  - intros H; discriminate H.
  - apply (bool_decide_unpack _). by vm_compute.
  - intros H; discriminate H.
  - apply (Hfail [Obj (bits 10 [0; 1; 2]); NoneCell]); reflexivity.
Defined.

(** ** The values written by calculate_descriptors *)

Section DescriptorValues.

Context {Mol : Type}.
Implicit Types (df s : DataFrame Mol) (cells : list (cell Mol)).

(** The cells of a column, or the empty cells a new column starts from. *)
Lemma at_set_cells s q lab col v :
  NoDup (index s) → index s !! q = Some lab →
  (∀ cells, column s col = Some cells → length cells = length (index s)) →
  at_set lab col v s
  = set_column col
      (<[q := v]> (default (replicate (length (index s)) NaN) (column s col))) s.
Proof.
  intros Hnd Hq Hlen. unfold at_set.
  rewrite decide_True by by eapply list_elem_of_lookup_2.
  f_equal. apply zip_with_label_insert; [done..|].
  destruct (column s col) as [cells|]; simpl; [by apply Hlen|].
  apply length_replicate.
Qed.

Lemma at_set_get_same s lab col v :
  NoDup (index s) → lab ∈ index s →
  (∀ cells, column s col = Some cells → length cells = length (index s)) →
  at_get lab col (at_set lab col v s) = Ok v.
Proof.
  intros Hnd [q Hq]%list_elem_of_lookup Hlen.
  rewrite (at_set_cells s q lab col v) by done.
  eapply (at_get_unique _ q lab col); [done|done|apply column_set_column_eq|].
  apply list_lookup_insert_eq.
  destruct (column s col) as [cells|]; simpl.
  - rewrite (Hlen cells) by done. by eapply lookup_lt_Some.
  - rewrite length_replicate. by eapply lookup_lt_Some.
Qed.

Lemma at_set_get_other s lab col v lab' col' v' :
  NoDup (index s) → lab ∈ index s →
  (∀ cells, column s col = Some cells → length cells = length (index s)) →
  lab' ≠ lab ∨ col' ≠ col →
  at_get lab' col' s = Ok v' →
  at_get lab' col' (at_set lab col v s) = Ok v'.
Proof.
  intros Hnd [q Hq]%list_elem_of_lookup Hlen Hne Hget.
  rewrite (at_set_cells s q lab col v) by done.
  apply at_get_inv_unique in Hget as (q' & cells' & Hq' & Hcells' & Hv');
    [|done].
  destruct (decide (col' = col)) as [->|Hcol].
  - eapply (at_get_unique _ q' lab' col); [done|done|apply column_set_column_eq|].
    rewrite Hcells'. simpl. rewrite list_lookup_insert_ne; [done|].
    intros ->. destruct Hne as [Hne|Hne]; [|done]. congruence.
  - eapply (at_get_unique _ q' lab' col'); [done|done| |done].
    by rewrite column_set_column_ne.
Qed.

Variables (fr : DataFrame Mol) (names : list string) (molecule_column : string).
Hypothesis index_NoDup : NoDup (index fr).
Hypothesis molecule_not_descriptor : molecule_column ∉ names.

Lemma at_set_values_inv s lab d v :
  values_inv fr names molecule_column s → lab ∈ index fr → d ∈ names →
  values_inv fr names molecule_column (at_set lab d v s).
Proof using index_NoDup molecule_not_descriptor.
  intros (Hidx & Hmol & Hlen) [q Hq]%list_elem_of_lookup Hd.
  rewrite (at_set_cells s q lab d v);
    [|by rewrite Hidx|by rewrite Hidx|
     intros cells Hc; rewrite Hidx; by apply (Hlen d)].
  split_and!; [done| |].
  - rewrite column_set_column_ne; [done|]. by intros ->.
  - intros d' cells Hd' Hc. destruct (decide (d' = d)) as [->|Hne].
    + rewrite column_set_column_eq in Hc. injection Hc as <-.
      rewrite length_insert.
      destruct (column s d) as [c0|] eqn:Hc0; simpl;
        [by apply (Hlen d)|by rewrite length_replicate, Hidx].
    + rewrite column_set_column_ne in Hc by done. by apply (Hlen d').
Qed.

Hypothesis names_NoDup : NoDup names.

(** One row: after the first [k] descriptors their cells of the row hold the
    calculator's values, and no other cell that could be read has changed. *)
Lemma row_values s lab (vs : list (cell Mol)) k :
  values_inv fr names molecule_column s → lab ∈ index fr →
  length vs = length names → k ≤ length names →
  ∃ s', for_each (take k (zip names vs))
          (λ p, modify (at_set lab p.1 p.2)) s = (s', Ok tt) ∧
        values_inv fr names molecule_column s' ∧
        (∀ lab' d v', lab' ≠ lab ∨ d ∉ names →
                      at_get lab' d s = Ok v' → at_get lab' d s' = Ok v') ∧
        (∀ k' d v, k' < k → names !! k' = Some d → vs !! k' = Some v →
                   at_get lab d s' = Ok v).
Proof using index_NoDup molecule_not_descriptor names_NoDup.
  intros Hinv Hlab Hvs. induction k as [|k IH]; intros Hk.
  - exists s. split_and!; [done..|]. intros; lia.
  - destruct IH as (s1 & Hrun & Hinv1 & Hkeep & Hvals); [lia|].
    destruct (lookup_lt_is_Some_2 names k) as [d Hd]; [lia|].
    destruct (lookup_lt_is_Some_2 vs k) as [v Hv]; [lia|].
    assert (zip names vs !! k = Some (d, v)) as Hz.
    { apply lookup_zip_with_Some. eauto. }
    assert (d ∈ names) as Hdn by by eapply list_elem_of_lookup_2.
    pose proof Hinv1 as (Hidx1 & _ & Hlen1).
    assert (NoDup (index s1)) as Hnd1 by by rewrite Hidx1.
    assert (lab ∈ index s1) as Hlab1 by by rewrite Hidx1.
    assert (∀ d0, d0 ∈ names → ∀ cells, column s1 d0 = Some cells →
              length cells = length (index s1)) as Hwf.
    { intros d0 Hd0 cells Hc. rewrite Hidx1. by apply (Hlen1 d0). }
    rewrite (take_S_r _ _ _ Hz), for_each_app, Hrun. simpl.
    eexists. split; [done|]. split_and!.
    + by apply at_set_values_inv.
    + intros lab' d' v' Hne Hget. apply at_set_get_other; [done|done|by apply Hwf| |by apply Hkeep].
      destruct Hne as [?|Hn]; [by left|right]. by intros ->.
    + intros k' d' v' Hk' Hd' Hv'. destruct (decide (k' = k)) as [->|Hne].
      * rewrite Hd in Hd'. rewrite Hv in Hv'. injection Hd' as <-.
        injection Hv' as <-. apply at_set_get_same; [done|done|].
        by apply Hwf.
      * apply at_set_get_other; [done|done| | |].
        -- by apply Hwf.
        -- right. intros Heq. apply Hne. rewrite Heq in Hd'.
           exact (NoDup_lookup names k' k d names_NoDup Hd' Hd).
        -- apply (Hvals k'); [lia|done..].
Qed.

End DescriptorValues.

Section DescriptorTable.

Context {Mol : Type}.
Variable _descList : list (string * (Mol → cell Mol)).
Variable CalcDescriptors : list string → cell Mol → result (list (cell Mol)).

Lemma rows_values (fr : DataFrame Mol) (molecule_column : string)
    (mols : list (cell Mol)) :
  NoDup (index fr) →
  column fr molecule_column = Some mols →
  length mols = length (index fr) →
  (∀ c, c ∈ mols → ∃ vs, CalcDescriptors _descList.*1 c = Ok vs ∧
                         length vs = length _descList) →
  NoDup _descList.*1 →
  molecule_column ∉ _descList.*1 →
  ∀ labels s,
    NoDup labels → (∀ lab, lab ∈ labels → lab ∈ index fr) →
    values_inv fr _descList.*1 molecule_column s →
    ∃ s',
      for_each labels (λ i,
        do fr_i <- get;
        do mol <- lift (at_get i molecule_column fr_i);
        do cd <- lift (CalcDescriptors _descList.*1 mol);
        for_each (zip _descList.*1 cd) (λ p, modify (at_set i p.1 p.2))) s
      = (s', Ok tt) ∧
      values_inv fr _descList.*1 molecule_column s' ∧
      (∀ lab' d v', lab' ∉ labels ∨ d ∉ _descList.*1 →
                    at_get lab' d s = Ok v' → at_get lab' d s' = Ok v') ∧
      (∀ lab p c vs k d v,
         lab ∈ labels → index fr !! p = Some lab → mols !! p = Some c →
         CalcDescriptors _descList.*1 c = Ok vs →
         _descList.*1 !! k = Some d → vs !! k = Some v →
         at_get lab d s' = Ok v).
Proof.
  intros Hnd Hmols Hlen Hvalid Hnames Hmc labels.
  induction labels as [|lab labels IH]; intros s Hndl Hsub Hinv.
  - exists s. split_and!; [done..|]. intros ??????? Hin. by apply elem_of_nil in Hin.
  - apply NoDup_cons in Hndl as [Hlab_rest Hndl].
    assert (lab ∈ index fr) as Hlab by (apply Hsub; left).
    pose proof Hlab as [p Hp]%list_elem_of_lookup.
    destruct (lookup_lt_is_Some_2 mols p) as [c Hc].
    { rewrite Hlen. by eapply lookup_lt_Some. }
    destruct (Hvalid c) as (vs & Hvs & Hvl); [by eapply list_elem_of_lookup_2|].
    assert (at_get lab molecule_column s = Ok c) as Hget.
    { destruct Hinv as (Hidx & Hmol & _).
      eapply (at_get_unique s p lab molecule_column mols);
        [by rewrite Hidx|by rewrite Hidx|by rewrite Hmol|done]. }
    destruct (row_values fr _descList.*1 molecule_column Hnd Hmc Hnames
                s lab vs (length _descList.*1))
      as (s1 & Hrun1 & Hinv1 & Hkeep1 & Hvals1);
      [done|done|by rewrite length_fmap|done|].
    rewrite take_ge in Hrun1 by (rewrite length_zip_with, length_fmap; lia).
    destruct (IH s1) as (s2 & Hrun2 & Hinv2 & Hkeep2 & Hvals2);
      [done|intros; apply Hsub; by right|done|].
    exists s2. split_and!; [|done| |].
    + simpl. unfold bind at 1. unfold bind at 1. unfold get at 1.
      cbv beta iota. unfold bind at 1. unfold lift at 1. rewrite Hget.
      cbv beta iota. unfold bind at 1. unfold lift at 1. rewrite Hvs.
      cbv beta iota. rewrite Hrun1. done.
    + intros lab' d v' Hne Hg. apply Hkeep2.
      * destruct Hne as [Hn|?]; [left|by right].
        intros ?. apply Hn. by right.
      * apply Hkeep1; [|done]. destruct Hne as [Hn|?]; [left|by right].
        intros ->. apply Hn. left.
    + intros lab0 p0 c0 vs0 k d v Hin Hp0 Hc0 Hvs0 Hd Hv.
      apply elem_of_cons in Hin as [->|Hin]; [|by eapply Hvals2].
      assert (p0 = p) as -> by exact (NoDup_lookup (index fr) p0 p lab Hnd Hp0 Hp).
      rewrite Hc in Hc0. injection Hc0 as <-.
      rewrite Hvs in Hvs0. injection Hvs0 as <-.
      apply Hkeep2; [by left|].
      apply (Hvals1 k d v); [by eapply lookup_lt_Some|done..].
Qed.

(** After a completed [calculate_descriptors], the cell of every row under
    every descriptor's name, read by the row's label, holds the value the
    calculator gave for the molecule of that row.  This needs distinct row
    labels, distinct descriptor names other than the molecule column's, a
    valid molecule in every row, and one cell per row in any column that
    already bears a descriptor's name. *)
Theorem calculate_descriptors_values (h : heap Mol) (df : nat)
    (fr : DataFrame Mol) (molecule_column : string) (mols : list (cell Mol)) :
  h !! df = Some fr →
  NoDup (index fr) →
  column fr molecule_column = Some mols →
  length mols = length (index fr) →
  (∀ c, c ∈ mols → ∃ vs, CalcDescriptors _descList.*1 c = Ok vs ∧
                         length vs = length _descList) →
  NoDup _descList.*1 →
  molecule_column ∉ _descList.*1 →
  (∀ d cells, d ∈ _descList.*1 → column fr d = Some cells →
              length cells = length (index fr)) →
  ∃ fr',
    calculate_descriptors _descList CalcDescriptors df molecule_column h
    = (<[df := fr']> h, Ok PyNone) ∧
    ∀ p lab c vs k d v,
      index fr !! p = Some lab → mols !! p = Some c →
      CalcDescriptors _descList.*1 c = Ok vs →
      _descList.*1 !! k = Some d → vs !! k = Some v →
      at_get lab d fr' = Ok v.
Proof.
  intros Hdf Hnd Hmols Hlen Hvalid Hnames Hmc Hwf.
  destruct (rows_values fr molecule_column mols Hnd Hmols Hlen Hvalid Hnames Hmc
              (index fr) fr) as (fr' & Hrun & _ & _ & Hvals); [done..|].
  exists fr'. split.
  - unfold calculate_descriptors, bind.
    by rewrite (in_place_run h df fr fr' _ (Ok tt)).
  - intros p lab c vs k d v Hp. apply Hvals; [|done].
    by eapply list_elem_of_lookup_2.
Qed.

(** A table without the molecule column: with at least one row the call
    raises [KeyError] at the first row and the store is as before; without
    any row the loop does not run, and the call returns [None] without ever
    looking for the column. *)
Theorem calculate_descriptors_missing_column (h : heap Mol) (df : nat)
    (fr : DataFrame Mol) (molecule_column : string) :
  h !! df = Some fr →
  column fr molecule_column = None →
  calculate_descriptors _descList CalcDescriptors df molecule_column h
  = (h, if index fr is [] then Ok PyNone else Raise (OtherError "KeyError")).
Proof.
  intros Hdf Hcol.
  pose proof (insert_id (M := gmap nat) h df fr Hdf) as Hid.
  unfold calculate_descriptors, bind.
  destruct (index fr) as [|lab labels] eqn:Hidx.
  - rewrite (in_place_run h df fr fr _ (Ok tt)); [|done|].
    + unfold ret. f_equal. exact Hid.
    + unfold calculate_descriptors_body, bind, get. by rewrite Hidx.
  - rewrite (in_place_run h df fr fr _ (Raise (OtherError "KeyError")));
      [|done|].
    + f_equal. exact Hid.
    + unfold calculate_descriptors_body, bind at 1, get at 1. rewrite Hidx.
      simpl. unfold bind, get, lift, at_get. by rewrite Hcol.
Qed.

End DescriptorTable.

Lemma calculate_descriptors_values_witness :
  ∃ fr',
    calculate_descriptors toy_descList toy_calc 1 "mol" {[ 1 := weighed_rows ]}
    = (<[1 := fr']> {[ 1 := weighed_rows ]}, Ok PyNone) ∧
    at_get 31 "MolWt" fr' = Ok (Int 7).
Proof.
  destruct (calculate_descriptors_values toy_descList toy_calc
              {[ 1 := weighed_rows ]} 1 weighed_rows "mol"
              [Obj (bits 10 [0; 1; 2]); Obj (bits 10 [0; 3])])
    as (fr' & Hrun & Hvals).
  - reflexivity.
  - apply (bool_decide_unpack _). by vm_compute.
  - reflexivity.
  - reflexivity.
  - intros c Hc. apply elem_of_cons in Hc as [->|Hc];
      [|apply list_elem_of_singleton in Hc as ->];
      eexists; split; reflexivity.
  - apply (bool_decide_unpack _). by vm_compute.
  - apply (bool_decide_unpack _). by vm_compute.
  - intros d cells Hd Hc. apply elem_of_cons in Hd as [->|Hd];
      [|apply list_elem_of_singleton in Hd as ->].
    + injection Hc as <-. reflexivity.
    + discriminate Hc.
  - exists fr'. split; [done|].
    apply (Hvals 1 31%Z (Obj (bits 10 [0; 3])) [Int 7; Int 10] 0 "MolWt" (Int 7));
      reflexivity.
Defined.

Lemma calculate_descriptors_missing_column_witness :
  calculate_descriptors toy_descList toy_calc 1 "structure" {[ 1 := weighed_rows ]}
  = ({[ 1 := weighed_rows ]}, Raise (OtherError "KeyError")).
Proof.
  apply (calculate_descriptors_missing_column toy_descList toy_calc
           {[ 1 := weighed_rows ]} 1 weighed_rows "structure"); reflexivity.
Defined.


(* ================================================================== *)
(** * Further properties of the rendering *)

Lemma lower_ascii_idemp c : lower_ascii (lower_ascii c) = lower_ascii c.
Proof.
  destruct c as [[] [] [] [] [] [] [] []]; reflexivity.
Qed.

Lemma lower_idemp s : lower (lower s) = lower s.
Proof.
  induction s as [|c s IH]; simpl; [done|]. by rewrite lower_ascii_idemp, IH.
Qed.

Section RenderingExtras.

Context {Mol Atom Image Bytes FS : Type}.
Variable GetAtomWithIdx : Mol → nat → result Atom.
Variable GetExplicitValence : Atom → result Z.
Variable UpdatePropertyCache : Mol → bool → result Mol.
Variable PrepareMolForDrawing : Mol → bool → result Mol.
Variable MolDraw2DSVG : Z → Z → Mol → result string.
Variable MolToImage : Mol → Z * Z → result Image.
Variable image_bytes : Image → result Bytes.
Variable image_save : Image → string → string → FS → FS * result unit.
Variable write_text : string → string → FS → FS * result unit.
Variable makedirs : string → FS → FS * result unit.
Variable b64encode : Bytes → string.
Variable encode_utf8 : string → Bytes.

#[local] Abbreviation render_svg :=
  (mol_to_svg (FS := FS) GetAtomWithIdx GetExplicitValence UpdatePropertyCache
     PrepareMolForDrawing MolDraw2DSVG).
#[local] Abbreviation render_html :=
  (mol_to_html GetAtomWithIdx GetExplicitValence UpdatePropertyCache
     PrepareMolForDrawing MolDraw2DSVG MolToImage image_bytes image_save
     write_text makedirs b64encode encode_utf8).

(** The type is looked at through its lowercase form only: a call with
    [type] and the call with its lowercase form do the same and return the
    same. *)
Theorem mol_to_html_case_insensitive (name type directory : string)
    (embed : bool) (width height : Z) (w : world Mol FS) :
  render_html name type directory embed width height w
  = render_html name (lower type) directory embed width height w.
Proof. unfold mol_to_html. by rewrite !lower_idemp. Qed.

(** [mol_to_svg] never touches the log or the files, and it leaves the
    molecule as it was unless the valence read raised a runtime error, in
    which case the molecule is the refreshed one. *)
Theorem mol_to_svg_effects (size : Z * Z) (w : world Mol FS) :
  w_log (render_svg size w).1 = w_log w ∧
  w_fs (render_svg size w).1 = w_fs w ∧
  (w_mol (render_svg size w).1 = w_mol w ∨
   (probe_raises GetAtomWithIdx GetExplicitValence (w_mol w) RuntimeError ∧
    UpdatePropertyCache (w_mol w) false = Ok (w_mol (render_svg size w).1))).
Proof.
  destruct size as [wd ht], w as [m log fs]. unfold probe_raises.
  unfold mol_to_svg, try_except, bind, get, lift, ret, modify, raise, set_mol;
    simpl.
  destruct (GetAtomWithIdx m 0) as [a|e] eqn:Ha; simpl;
    [destruct (GetExplicitValence a) as [v|e] eqn:Hv; simpl|];
    try (destruct (decide (e = RuntimeError)) as [->|]; simpl;
         [destruct (UpdatePropertyCache m false) as [m1|e1] eqn:Hup; simpl|]);
    repeat match goal with
    | |- context [PrepareMolForDrawing ?x ?b] =>
        destruct (PrepareMolForDrawing x b) as [?|[]]; simpl
    | |- context [MolDraw2DSVG ?a ?b ?c] =>
        destruct (MolDraw2DSVG a b c); simpl
    end; split_and!; try done; eauto 6.
Qed.

(** File mode, that is [embed=False] with a recognized type: the directory
    is made first, and when that fails the error reaches the caller and
    nothing is rendered, the molecule and the log being untouched. *)
Theorem mol_to_html_makedirs_failure (name type directory : string)
    (width height : Z) (w : world Mol FS) (fs' : FS) (e : exn) :
  lower type = "png" ∨ lower type = "svg" →
  makedirs directory (w_fs w) = (fs', Raise e) →
  render_html name type directory false width height w
  = ({| w_mol := w_mol w; w_log := w_log w; w_fs := fs' |}, Raise e).
Proof.
  intros Hty Hmk. unfold mol_to_html.
  rewrite bool_decide_eq_false_2
    by (intros Hn; apply Hn; destruct Hty as [-> | ->]; [left|right; left]).
  unfold bind at 1. unfold on_fs. by rewrite Hmk.
Qed.

(** File mode with a recognized type: whenever the call returns, the tag
    refers to [directory/name] with the requested width, whatever the
    molecule, the type and the height. *)
Theorem mol_to_html_file_tag (name type directory : string)
    (width height : Z) (w : world Mol FS) (v : option string) :
  lower type = "png" ∨ lower type = "svg" →
  (render_html name type directory false width height w).2 = Ok v →
  v = Some (img_tag (directory +:+ "/" +:+ name) width).
Proof.
  intros Hty. unfold mol_to_html.
  rewrite bool_decide_eq_false_2
    by (intros Hn; apply Hn; destruct Hty as [-> | ->]; [left|right; left]).
  unfold bind at 1.
  destruct (on_fs _ w) as [w1 [[]|e]]; [|done].
  unfold bind at 1.
  match goal with
  | |- context [?m w1] => destruct (m w1) as [w2 [[]|e]]; [|done]
  end.
  unfold ret. simpl. by intros [= <-].
Qed.

(** File mode with type [svg]: when the rendering fails after the directory
    was made, the error reaches the caller and no file is written; when it
    succeeds, the text that [mol_to_svg] returned is written to
    [directory/name], a failure of that write reaches the caller, and
    otherwise the tag for that file is returned. *)
Theorem mol_to_html_svg_file (name type directory : string)
    (width height : Z) (w : world Mol FS) (fs1 : FS) :
  lower type = "svg" →
  makedirs directory (w_fs w) = (fs1, Ok tt) →
  let w1 := {| w_mol := w_mol w; w_log := w_log w; w_fs := fs1 |} in
  (∀ e, (render_svg (width, height) w1).2 = Raise e →
     (render_html name type directory false width height w).2 = Raise e ∧
     w_fs (render_html name type directory false width height w).1 = fs1) ∧
  (∀ svg, (render_svg (width, height) w1).2 = Ok svg →
     w_fs (render_html name type directory false width height w).1
     = (write_text (directory +:+ "/" +:+ name) svg fs1).1 ∧
     (render_html name type directory false width height w).2
     = result_map (λ _, Some (img_tag (directory +:+ "/" +:+ name) width))
         (write_text (directory +:+ "/" +:+ name) svg fs1).2).
Proof.
  intros Hty Hmk w1.
  assert (render_html name type directory false width height w
          = (save_svg GetAtomWithIdx GetExplicitValence UpdatePropertyCache
               PrepareMolForDrawing MolDraw2DSVG write_text
               (directory +:+ "/" +:+ name) (width, height) ;;;
             ret (Some (img_tag (directory +:+ "/" +:+ name) width))) w1)
    as ->.
  { unfold mol_to_html. rewrite Hty.
    rewrite bool_decide_eq_false_2 by (intros Hn; apply Hn; right; left).
    rewrite (bool_decide_eq_false_2 ("svg" = "png")) by done.
    rewrite (bool_decide_eq_true_2 ("svg" = "svg")) by done.
    unfold bind at 1, on_fs at 1. by rewrite Hmk. }
  destruct (mol_to_svg_frame GetAtomWithIdx GetExplicitValence
              UpdatePropertyCache PrepareMolForDrawing MolDraw2DSVG
              (width, height) w1 w1 eq_refl) as (_ & _ & Hfs & _).
  unfold save_svg, bind. revert Hfs.
  generalize (render_svg (width, height) w1).
  intros [w2 [svg|e]] Hfs; simpl in Hfs; cbn [fst snd].
  - split; [done|]. intros ? [= <-]. unfold on_fs, ret. rewrite Hfs.
    by destruct (write_text _ svg fs1) as [fs2 [[]|e]].
  - split; [|done]. by intros ? [= <-].
Qed.

(** File mode with type [png]: when the image cannot be made after the
    directory was made, the error reaches the caller and no file is written;
    otherwise the image is saved to [directory/name] in the PNG format. *)
Theorem mol_to_html_png_file (name type directory : string)
    (width height : Z) (w : world Mol FS) (fs1 : FS) :
  lower type = "png" →
  makedirs directory (w_fs w) = (fs1, Ok tt) →
  (∀ e, MolToImage (w_mol w) (width, height) = Raise e →
     render_html name type directory false width height w
     = ({| w_mol := w_mol w; w_log := w_log w; w_fs := fs1 |}, Raise e)) ∧
  (∀ img, MolToImage (w_mol w) (width, height) = Ok img →
     w_fs (render_html name type directory false width height w).1
     = (image_save img (directory +:+ "/" +:+ name) "PNG" fs1).1 ∧
     (render_html name type directory false width height w).2
     = result_map (λ _, Some (img_tag (directory +:+ "/" +:+ name) width))
         (image_save img (directory +:+ "/" +:+ name) "PNG" fs1).2).
Proof.
  intros Hty Hmk. unfold mol_to_html. rewrite Hty.
  rewrite bool_decide_eq_false_2 by (intros Hn; apply Hn; left).
  rewrite (bool_decide_eq_true_2 ("png" = "png")) by done.
  unfold save_png, mol_to_pil, bind, get, lift, ret, on_fs.
  rewrite !Hmk. simpl.
  split.
  - by intros e ->.
  - intros img ->. simpl.
    by destruct (image_save img _ "PNG" fs1) as [fs2 [[]|e]].
Qed.

End RenderingExtras.

Lemma mol_to_html_makedirs_failure_witness :
  mol_to_html (FS := list (string * string))
    toy_atom toy_valence toy_update toy_prepare toy_svg toy_image toy_bytes
    toy_save toy_write (λ _ fs, (fs, Raise (OtherError "PermissionError")))
    (λ b : string, b) (λ s : string, s)
    "a.png" "PNG" "out" false 300 200
    (toy_world {| stale := true; kekulizable := false |})
  = (toy_world {| stale := true; kekulizable := false |},
     Raise (OtherError "PermissionError")).
Proof.
  apply (mol_to_html_makedirs_failure (FS := list (string * string))
           toy_atom toy_valence toy_update toy_prepare toy_svg toy_image
           toy_bytes toy_save toy_write
           (λ _ fs, (fs, Raise (OtherError "PermissionError")))
           (λ b : string, b) (λ s : string, s)
           "a.png" "PNG" "out" 300 200
           (toy_world {| stale := true; kekulizable := false |})).
  - left. reflexivity.
  - reflexivity.
Defined.

Lemma mol_to_html_file_tag_witness :
  ∃ v,
    (toy_mol_to_html "a.svg" "SVG" "out" false 300 200
       (toy_world {| stale := true; kekulizable := false |})).2 = Ok v ∧
    v = Some "<img src='out/a.svg' style='width:300px;'>".
Proof.
  eexists. split; [reflexivity|].
  apply (mol_to_html_file_tag (FS := list (string * string))
           toy_atom toy_valence toy_update toy_prepare toy_svg toy_image
           toy_bytes toy_save toy_write toy_makedirs
           (λ b : string, b) (λ s : string, s)
           "a.svg" "SVG" "out" 300 200
           (toy_world {| stale := true; kekulizable := false |})).
  - right. reflexivity.
  - reflexivity.
Defined.

Lemma mol_to_html_svg_file_witness :
  w_fs (toy_mol_to_html "a.svg" "SVG" "out" false 300 200
          (toy_world {| stale := true; kekulizable := false |})).1
  = [("out/a.svg", "<svg xmlns='http://www.w3.org/2000/svg'></svg>")] ∧
  (toy_mol_to_html "a.svg" "SVG" "out" false 300 200
     (toy_world {| stale := true; kekulizable := false |})).2
  = Ok (Some "<img src='out/a.svg' style='width:300px;'>").
Proof.
  destruct (mol_to_html_svg_file (FS := list (string * string))
              toy_atom toy_valence toy_update toy_prepare toy_svg toy_image
              toy_bytes toy_save toy_write toy_makedirs
              (λ b : string, b) (λ s : string, s)
              "a.svg" "SVG" "out" 300 200
              (toy_world {| stale := true; kekulizable := false |}) [])
    as [_ Hok].
  - reflexivity.
  - reflexivity.
  - exact (Hok "<svg xmlns='http://www.w3.org/2000/svg'></svg>" eq_refl).
Defined.

Lemma mol_to_html_png_file_witness :
  w_fs (toy_mol_to_html "a.png" "Png" "out" false 300 200
          (toy_world {| stale := false; kekulizable := true |})).1
  = [("out/a.png", "PNG")] ∧
  (toy_mol_to_html "a.png" "Png" "out" false 300 200
     (toy_world {| stale := false; kekulizable := true |})).2
  = Ok (Some "<img src='out/a.png' style='width:300px;'>").
Proof.
  destruct (mol_to_html_png_file (FS := list (string * string))
              toy_atom toy_valence toy_update toy_prepare toy_svg toy_image
              toy_bytes toy_save toy_write toy_makedirs
              (λ b : string, b) (λ s : string, s)
              "a.png" "Png" "out" 300 200
              (toy_world {| stale := false; kekulizable := true |}) [])
    as [_ Hok].
  - reflexivity.
  - reflexivity.
  - exact (Hok "PNG" eq_refl).
Defined.
